(** * Safe arithmetic evaluation of [bot.py]

    A shallow embedding of [safe_eval] (src/bot.py, lines 33-69): the
    operator table [ALLOWED_OPERATORS], the tree walk [_eval] and the
    [try]/[except] wrapper, over a model of the Python objects they
    touch: the [ast] node classes, the functions of the [operator]
    module on [int], [float] and [complex], and [ast.parse] in
    ["eval"] mode.  The message handler [calculate] (lines 81-88)
    follows, over [str.strip], [str] of a number and an abstract
    [reply_text].

    Model of the interpreter: CPython 3.8 to 3.11 in its default
    configuration, where [ast.Num] is the alias whose instance check
    accepts a [Constant] holding an [int], [float] or [complex] and
    refuses [bool] (3.12 and 3.13 add a [DeprecationWarning] to it,
    3.14 removes it).  The recursion limit and the memory of the
    interpreter are not modelled: a walk is as deep as its tree. *)

From Stdlib Require Import ZArith List String Ascii Bool Lia.
From Stdlib Require Import Floats.SpecFloat.
Import ListNotations.
Open Scope string_scope.
Open Scope Z_scope.
Set Warnings "-register-all".
Set Warnings "-automation".

(* ------------------------------------------------------------------ *)
(** ** Exceptions and results *)

(** The exception classes that can reach the [except Exception] clause;
    [ValueError] carries its message. *)
Inductive exn : Type :=
| SyntaxError
| TypeError
| ZeroDivisionError
| OverflowError
| KeyError
| ValueError (msg : string).

Inductive result (A : Type) : Type :=
| Ok (a : A)
| Raise (e : exn).
Arguments Ok {A} a.
Arguments Raise {A} e.

Definition bind {A B : Type} (m : result A) (k : A -> result B) : result B :=
  match m with
  | Ok a => k a
  | Raise e => Raise e
  end.

Notation "x <- m ;; k" := (bind m (fun x => k))
  (at level 61, m at next level, right associativity).

(* ------------------------------------------------------------------ *)
(** ** Floating point

    Binary floating point is taken as an interface: the carrier of
    Python's [float] with the operations of [floatobject.c],
    [longobject.c] and [complexobject.c] that the [operator] functions
    call once their own checks (zero divisor, conversion overflow) are
    done.  What those checks are is part of the model below, not of
    the interface. *)
Class FloatArith : Type := {
  float : Type;
  (** the literal [m * 10^e] rounded to the nearest float *)
  f_of_decimal : Z -> Z -> float;
  (** [PyLong_AsDouble]: [None] is its [OverflowError] *)
  f_of_int : Z -> option float;
  f_is_zero : float -> bool;
  f_neg : float -> float;
  f_add : float -> float -> float;
  f_sub : float -> float -> float;
  f_mul : float -> float -> float;
  f_div : float -> float -> float;
  (** [float_rem] and [float_floor_div] past their zero check *)
  f_mod : float -> float -> float;
  f_floordiv : float -> float -> float;
  (** [float_pow]: a float, a complex (negative base, fractional
      exponent) or an exception *)
  f_pow : float -> float -> result (float + float * float);
  (** [long_true_divide] past its zero check: [None] is its
      [OverflowError] *)
  int_true_divide : Z -> Z -> option float;
  (** [_Py_c_quot] past its zero check, and [complex_pow] *)
  c_quot : float * float -> float * float -> float * float;
  c_pow : float * float -> float * float -> result (float * float);
  (** the literal [0.0] and the integer [0] convert to a zero *)
  f_zero_is_zero : f_is_zero (f_of_decimal 0 0) = true;
  f_of_int_zero : forall x, f_of_int 0 = Some x -> f_is_zero x = true
}.

Section Evaluator.
Context {FA : FloatArith}.

(* ------------------------------------------------------------------ *)
(** ** Python numbers *)

Inductive value : Type :=
| VInt (z : Z)
| VFloat (x : float)
| VComplex (re im : float).

Definition f_zero : float := f_of_decimal 0 0.

Definition to_float (v : value) : result float :=
  match v with
  | VInt z => match f_of_int z with
              | Some x => Ok x
              | None => Raise OverflowError
              end
  | VFloat x => Ok x
  | VComplex _ _ => Raise TypeError
  end.

Definition to_complex (v : value) : result (float * float) :=
  match v with
  | VComplex re im => Ok (re, im)
  | _ => x <- to_float v ;; Ok (x, f_zero)
  end.

Definition of_float_or_complex (r : float + float * float) : value :=
  match r with
  | inl x => VFloat x
  | inr (re, im) => VComplex re im
  end.

(** The binary slots of the numeric tower: [int] with [int] stays in
    [int]; otherwise both operands are converted to [float], or to
    [complex] when one of them is complex, before the operation. *)
Definition numeric_binop
    (iop : Z -> Z -> result value)
    (fop : float -> float -> result value)
    (cop : float * float -> float * float -> result value)
    (a b : value) : result value :=
  match a, b with
  | VInt x, VInt y => iop x y
  | VComplex _ _, _ | _, VComplex _ _ =>
      x <- to_complex a ;; y <- to_complex b ;; cop x y
  | _, _ =>
      x <- to_float a ;; y <- to_float b ;; fop x y
  end.

Definition c_is_zero (c : float * float) : bool :=
  f_is_zero (fst c) && f_is_zero (snd c).

Definition c_add (a b : float * float) : float * float :=
  (f_add (fst a) (fst b), f_add (snd a) (snd b)).
Definition c_sub (a b : float * float) : float * float :=
  (f_sub (fst a) (fst b), f_sub (snd a) (snd b)).
Definition c_mul (a b : float * float) : float * float :=
  (f_sub (f_mul (fst a) (fst b)) (f_mul (snd a) (snd b)),
   f_add (f_mul (fst a) (snd b)) (f_mul (snd a) (fst b))).

Definition VC (c : float * float) : value := VComplex (fst c) (snd c).

(** *** The functions of the [operator] module in the table *)

Definition operator_add : value -> value -> result value :=
  numeric_binop
    (fun x y => Ok (VInt (x + y)))
    (fun x y => Ok (VFloat (f_add x y)))
    (fun x y => Ok (VC (c_add x y))).

Definition operator_sub : value -> value -> result value :=
  numeric_binop
    (fun x y => Ok (VInt (x - y)))
    (fun x y => Ok (VFloat (f_sub x y)))
    (fun x y => Ok (VC (c_sub x y))).

Definition operator_mul : value -> value -> result value :=
  numeric_binop
    (fun x y => Ok (VInt (x * y)))
    (fun x y => Ok (VFloat (f_mul x y)))
    (fun x y => Ok (VC (c_mul x y))).

Definition operator_truediv : value -> value -> result value :=
  numeric_binop
    (fun x y =>
       if y =? 0 then Raise ZeroDivisionError
       else match int_true_divide x y with
            | Some q => Ok (VFloat q)
            | None => Raise OverflowError
            end)
    (fun x y =>
       if f_is_zero y then Raise ZeroDivisionError
       else Ok (VFloat (f_div x y)))
    (fun x y =>
       if c_is_zero y then Raise ZeroDivisionError
       else Ok (VC (c_quot x y))).

(** [int % int] and [int // int] round the quotient down, so they are
    [Z.modulo] and [Z.div]; [complex] has neither slot. *)
Definition operator_mod : value -> value -> result value :=
  numeric_binop
    (fun x y =>
       if y =? 0 then Raise ZeroDivisionError else Ok (VInt (x mod y)))
    (fun x y =>
       if f_is_zero y then Raise ZeroDivisionError
       else Ok (VFloat (f_mod x y)))
    (fun _ _ => Raise TypeError).

Definition operator_floordiv : value -> value -> result value :=
  numeric_binop
    (fun x y =>
       if y =? 0 then Raise ZeroDivisionError else Ok (VInt (x / y)))
    (fun x y =>
       if f_is_zero y then Raise ZeroDivisionError
       else Ok (VFloat (f_floordiv x y)))
    (fun _ _ => Raise TypeError).

Definition float_pow (x y : float) : result value :=
  r <- f_pow x y ;; Ok (of_float_or_complex r).

(** [long_pow] hands a negative exponent over to [float_pow]. *)
Definition operator_pow : value -> value -> result value :=
  numeric_binop
    (fun x y =>
       if 0 <=? y then Ok (VInt (x ^ y))
       else x' <- to_float (VInt x) ;; y' <- to_float (VInt y) ;;
            float_pow x' y')
    float_pow
    (fun x y => r <- c_pow x y ;; Ok (VC r)).

Definition operator_neg (a : value) : result value :=
  match a with
  | VInt x => Ok (VInt (- x))
  | VFloat x => Ok (VFloat (f_neg x))
  | VComplex re im => Ok (VComplex (f_neg re) (f_neg im))
  end.

End Evaluator.

(* ------------------------------------------------------------------ *)
(** ** The node classes of the [ast] module *)

Module ast.

Inductive operator : Type :=
| Add | Sub | Mult | MatMult | Div | Mod | Pow
| LShift | RShift | BitOr | BitXor | BitAnd | FloorDiv.

Inductive unaryop : Type := Invert | Not | UAdd | USub.

Inductive boolop : Type := And | Or.

Inductive cmpop : Type :=
| Eq | NotEq | Lt | LtE | Gt | GtE | Is | IsNot | In | NotIn.

(** The class of an operator object, what [type(node.op)] returns. *)
Inductive class : Type :=
| operator_class (o : operator)
| unaryop_class (u : unaryop).

Definition operator_eqb (a b : operator) : bool :=
  match a, b with
  | Add, Add | Sub, Sub | Mult, Mult | MatMult, MatMult | Div, Div
  | Mod, Mod | Pow, Pow | LShift, LShift | RShift, RShift
  | BitOr, BitOr | BitXor, BitXor | BitAnd, BitAnd
  | FloorDiv, FloorDiv => true
  | _, _ => false
  end.

Definition unaryop_eqb (a b : unaryop) : bool :=
  match a, b with
  | Invert, Invert | Not, Not | UAdd, UAdd | USub, USub => true
  | _, _ => false
  end.

Definition class_eqb (a b : class) : bool :=
  match a, b with
  | operator_class x, operator_class y => operator_eqb x y
  | unaryop_class x, unaryop_class y => unaryop_eqb x y
  | _, _ => false
  end.

Section Nodes.
Context {FA : FloatArith}.

(** The value of a [Constant] node. *)
Inductive constant : Type :=
| CInt (z : Z)
| CFloat (x : float)
| CComplex (re im : float)
| CStr (s : string)
| CBytes (s : string)
| CBool (b : bool)
| CNone
| CEllipsis.

(** [Expression] is the root that [ast.parse(_, mode="eval")] returns;
    the others are the expression nodes of the grammar fragment that
    [parse] below recognises. *)
Inductive node : Type :=
| Expression (body : node)
| Constant (value : constant)
| BinOp (left : node) (op : operator) (right : node)
| UnaryOp (op : unaryop) (operand : node)
| BoolOp (op : boolop) (values : list node)
| Compare (left : node) (ops : list cmpop) (comparators : list node)
| IfExp (test body orelse : node)
| Call (func : node) (args : list node) (keywords : list (string * node))
| Attribute (value : node) (attr : string)
| Subscript (value : node) (slice : node)
| Name (id : string)
| JoinedStr (source : string)
| List (elts : list node)
| Tuple (elts : list node).

End Nodes.
End ast.

(* ------------------------------------------------------------------ *)
(** ** [ALLOWED_OPERATORS] and [safe_eval] on a parsed tree *)

(** The functions of the [operator] module, as objects that are stored
    in a dict and called. *)
Inductive callable : Type :=
| op_add | op_sub | op_mul | op_truediv | op_pow | op_neg | op_mod
| op_floordiv.

Definition ALLOWED_OPERATORS : list (ast.class * callable) :=
  [ (ast.operator_class ast.Add, op_add);
    (ast.operator_class ast.Sub, op_sub);
    (ast.operator_class ast.Mult, op_mul);
    (ast.operator_class ast.Div, op_truediv);
    (ast.operator_class ast.Pow, op_pow);
    (ast.unaryop_class ast.USub, op_neg);
    (ast.operator_class ast.Mod, op_mod);
    (ast.operator_class ast.FloorDiv, op_floordiv) ].

(** [d[k]] and [k in d] for a dict held as an association list. *)
Fixpoint dict_get {V : Type} (d : list (ast.class * V)) (k : ast.class)
  : option V :=
  match d with
  | [] => None
  | (k', v) :: d' => if ast.class_eqb k k' then Some v else dict_get d' k
  end.

Definition dict_contains {V : Type} (d : list (ast.class * V))
    (k : ast.class) : bool :=
  match dict_get d k with Some _ => true | None => false end.

Definition getitem {V : Type} (d : list (ast.class * V)) (k : ast.class)
  : result V :=
  match dict_get d k with Some v => Ok v | None => Raise KeyError end.

Arguments dict_get : simpl never.
Arguments dict_contains : simpl never.
Arguments getitem : simpl never.

Section SafeEval.
Context {FA : FloatArith}.

(** Calling one of the [operator] functions: a wrong number of
    arguments is a [TypeError]. *)
Definition call (f : callable) (args : list value) : result value :=
  match f, args with
  | op_add, [a; b] => operator_add a b
  | op_sub, [a; b] => operator_sub a b
  | op_mul, [a; b] => operator_mul a b
  | op_truediv, [a; b] => operator_truediv a b
  | op_pow, [a; b] => operator_pow a b
  | op_mod, [a; b] => operator_mod a b
  | op_floordiv, [a; b] => operator_floordiv a b
  | op_neg, [a] => operator_neg a
  | _, _ => Raise TypeError
  end.

(** [isinstance(node, ast.Num)] on a [Constant], and [node.n]. *)
Definition is_Num (c : ast.constant) : bool :=
  match c with
  | ast.CInt _ | ast.CFloat _ | ast.CComplex _ _ => true
  | _ => false
  end.

Definition n (c : ast.constant) : result value :=
  match c with
  | ast.CInt z => Ok (VInt z)
  | ast.CFloat x => Ok (VFloat x)
  | ast.CComplex re im => Ok (VComplex re im)
  | _ => Raise TypeError
  end.

Definition unsupported : exn := ValueError "Unsupported expression".

(** The inner function [_eval] (lines 52-65).  In the two operator
    branches the callee is looked up before the operands are
    evaluated, left to right; a failed [if] falls through to the
    [raise] of line 65. *)
Fixpoint _eval (node : ast.node) : result value :=
  match node with
  | ast.Expression body => _eval body
  | ast.Constant c =>
      if is_Num c then n c else Raise unsupported
  | ast.BinOp node_left op node_right =>
      if dict_contains ALLOWED_OPERATORS (ast.operator_class op) then
        f <- getitem ALLOWED_OPERATORS (ast.operator_class op) ;;
        a <- _eval node_left ;;
        b <- _eval node_right ;;
        call f [a; b]
      else Raise unsupported
  | ast.UnaryOp op operand =>
      if dict_contains ALLOWED_OPERATORS (ast.unaryop_class op) then
        f <- getitem ALLOWED_OPERATORS (ast.unaryop_class op) ;;
        a <- _eval operand ;;
        call f [a]
      else Raise unsupported
  | _ => Raise unsupported
  end.

End SafeEval.

(* ------------------------------------------------------------------ *)
(** ** [ast.parse(expr, mode="eval")]: the tokenizer

    The source text is the list of the bytes of its UTF-8 encoding.
    The tokenizer follows CPython's [tokenizer.c] on what can occur in
    an arithmetic expression: blanks, comments, line structure,
    backslash continuation and every form of numeric literal; and on
    names, string literals and operators, which only lead to nodes
    that [_eval] refuses. *)

Inductive num_literal : Type :=
| LInt (z : Z)
| LFloat (m e : Z)      (** the decimal [m * 10^e] *)
| LImag (m e : Z).      (** [m * 10^e] times [j] *)

Inductive string_kind : Type := SStr | SBytes | SFormat.

Inductive token : Type :=
| NUMBER (l : num_literal)
| NAME (s : string)
| STRING (k : string_kind) (s : string)
| OP (s : string)
| NEWLINE.

Definition code (c : ascii) : Z := Z.of_N (N_of_ascii c).

Definition in_range (lo hi : Z) (c : ascii) : bool :=
  (lo <=? code c) && (code c <=? hi).

Definition is_digit : ascii -> bool := in_range 48 57.
Definition is_octdigit : ascii -> bool := in_range 48 55.
Definition is_bindigit : ascii -> bool := in_range 48 49.
Definition is_xdigit (c : ascii) : bool :=
  is_digit c || in_range 97 102 c || in_range 65 70 c.

(** Letters, the underscore, and every byte of a non-ASCII character. *)
Definition is_name_start (c : ascii) : bool :=
  in_range 97 122 c || in_range 65 90 c || (code c =? 95) || (128 <=? code c).
Definition is_name_char (c : ascii) : bool :=
  is_name_start c || is_digit c.

Definition is_newline (c : ascii) : bool := code c =? 10.
(** Space, tab and form feed. *)
Definition is_blank (c : ascii) : bool :=
  (code c =? 32) || (code c =? 9) || (code c =? 12).

Definition digit_value (c : ascii) : Z :=
  if is_digit c then code c - 48
  else if in_range 97 102 c then code c - 87
  else code c - 55.

Definition Z_of_digits (base : Z) (ds : list ascii) : Z :=
  fold_left (fun acc d => acc * base + digit_value d) ds 0.

(** Universal newlines: [\r\n] and a lone [\r] both read as [\n]. *)
Fixpoint translate_newlines (cs : list ascii) : list ascii :=
  match cs with
  | [] => []
  | c :: cs' =>
      if code c =? 13 then
        match cs' with
        | d :: cs'' =>
            if code d =? 10 then d :: translate_newlines cs''
            else "010"%char :: translate_newlines cs'
        | [] => ["010"%char]
        end
      else c :: translate_newlines cs'
  end.

(** The longest run [digit (["_"] digit)*] at the head of [cs], the
    underscores dropped; an underscore that no digit follows is left
    in the rest, where it ends the literal wrongly. *)
Fixpoint digit_run (p : ascii -> bool) (cs : list ascii)
  : list ascii * list ascii :=
  match cs with
  | c :: cs' =>
      if p c then
        let '(ds, r) := digit_run p cs' in (c :: ds, r)
      else if code c =? 95 then
        match cs' with
        | d :: _ =>
            if p d then digit_run p cs' else ([], cs)
        | [] => ([], cs)
        end
      else ([], cs)
  | [] => ([], [])
  end.

(** A literal must not run into a name character. *)
Definition end_of_number (l : num_literal) (rest : list ascii)
  : option (num_literal * list ascii) :=
  match rest with
  | c :: _ => if is_name_char c then None else Some (l, rest)
  | [] => Some (l, rest)
  end.

(** [sys.int_info.default_max_str_digits] *)
Definition int_max_str_digits : nat := 4300.

(** The exponent part, when [cs] starts with one: its value and the
    rest.  An [e] that neither a digit nor a sign follows is left in
    place, and no exponent is read. *)
Definition exponent (cs : list ascii) : option (option Z * list ascii) :=
  match cs with
  | e :: cs1 =>
      if (code e =? 101) || (code e =? 69) then
        match cs1 with
        | s :: cs2 =>
            if (code s =? 43) || (code s =? 45) then
              match cs2 with
              | d :: _ =>
                  if is_digit d then
                    let '(ds, r) := digit_run is_digit cs2 in
                    let v := Z_of_digits 10 ds in
                    Some (Some (if code s =? 45 then - v else v), r)
                  else None
              | [] => None
              end
            else if is_digit s then
              let '(ds, r) := digit_run is_digit cs1 in
              Some (Some (Z_of_digits 10 ds), r)
            else Some (None, cs)
        | [] => Some (None, cs)
        end
      else Some (None, cs)
  | [] => Some (None, cs)
  end.

(** The fraction part, when [cs] starts with a point: its digits. *)
Definition fraction (cs : list ascii) : option (list ascii) * list ascii :=
  match cs with
  | c :: cs' =>
      if code c =? 46 then
        let '(fp, r) := digit_run is_digit cs' in (Some fp, r)
      else (None, cs)
  | [] => (None, cs)
  end.

(** The tail of a decimal literal after its integer digits [ip]:
    fraction, exponent, imaginary suffix.  [leading_zero] tells that
    [ip] is a run of zeros followed by other digits, which only a
    float or imaginary literal may be. *)
Definition decimal_tail (leading_zero : bool) (ip : list ascii)
    (cs : list ascii) : option (num_literal * list ascii) :=
  let '(fp, cs1) := fraction cs in
  match exponent cs1 with
  | None => None
  | Some (ex, cs2) =>
      let is_float :=
        match fp, ex with None, None => false | _, _ => true end in
      let fd := match fp with Some ds => ds | None => [] end in
      let m := Z_of_digits 10 (ip ++ fd)%list in
      let e := match ex with Some v => v | None => 0 end
               - Z.of_nat (List.length fd) in
      let imaginary :=
        match cs2 with
        | j :: _ => (code j =? 106) || (code j =? 74)
        | [] => false
        end in
      if imaginary then end_of_number (LImag m e) (tl cs2)
      else if is_float then end_of_number (LFloat m e) cs2
      else if leading_zero then None
      else if (int_max_str_digits <? List.length ip)%nat then None
      else end_of_number (LInt m) cs2
  end.

(** A literal in base 2, 8 or 16, after its [0b], [0o] or [0x]. *)
Definition radix_literal (base : Z) (p : ascii -> bool) (cs : list ascii)
  : option (num_literal * list ascii) :=
  let cs' := match cs with
             | u :: r => if code u =? 95 then r else cs
             | [] => cs
             end in
  match cs' with
  | d :: _ =>
      if p d then
        let '(ds, r) := digit_run p cs' in
        end_of_number (LInt (Z_of_digits base ds)) r
      else None
  | [] => None
  end.

(** A numeric literal at the head of [cs], which starts with a digit
    or with a point that a digit follows. *)
Definition number (cs : list ascii) : option (num_literal * list ascii) :=
  match cs with
  | c :: cs' =>
      if code c =? 48 then
        match cs' with
        | x :: cs'' =>
            if (code x =? 120) || (code x =? 88) then
              radix_literal 16 is_xdigit cs''
            else if (code x =? 111) || (code x =? 79) then
              radix_literal 8 is_octdigit cs''
            else if (code x =? 98) || (code x =? 66) then
              radix_literal 2 is_bindigit cs''
            else
              let '(zs, r) := digit_run (fun d => code d =? 48) cs in
              match r with
              | d :: _ =>
                  if is_digit d || (code d =? 95) then
                    let '(ds, r') := digit_run is_digit cs in
                    decimal_tail true ds r'
                  else decimal_tail false zs r
              | [] => decimal_tail false zs r
              end
        | [] => Some (LInt 0, [])
        end
      else
        let '(ds, r) := digit_run is_digit cs in
        decimal_tail false ds r
  | [] => None
  end.

Fixpoint span (p : ascii -> bool) (cs : list ascii)
  : list ascii * list ascii :=
  match cs with
  | c :: cs' =>
      if p c then let '(a, r) := span p cs' in (c :: a, r) else ([], cs)
  | [] => ([], [])
  end.

Definition lower (c : ascii) : ascii :=
  if in_range 65 90 c then ascii_of_N (N_of_ascii c + 32) else c.

(** The prefixes a string literal may carry, and what they make it. *)
Definition string_prefix (nm : list ascii) : option string_kind :=
  let p := string_of_list_ascii (map lower nm) in
  if (p =? "")%string || (p =? "r")%string || (p =? "u")%string
  then Some SStr
  else if (p =? "b")%string || (p =? "br")%string || (p =? "rb")%string
  then Some SBytes
  else if (p =? "f")%string || (p =? "fr")%string || (p =? "rf")%string
  then Some SFormat
  else None.

(** The body of a string literal up to its closing quote(s); a
    backslash takes the next character with it, and a literal with
    single quotes cannot hold a line end. *)
Fixpoint string_body (q : ascii) (triple : bool) (cs acc : list ascii)
  : option (list ascii * list ascii) :=
  match cs with
  | [] => None
  | c :: cs' =>
      if code c =? 92 then
        match cs' with
        | d :: cs'' => string_body q triple cs'' (d :: c :: acc)
        | [] => None
        end
      else if Ascii.eqb c q then
        if triple then
          match cs' with
          | c2 :: c3 :: cs3 =>
              if Ascii.eqb c2 q && Ascii.eqb c3 q then Some (rev acc, cs3)
              else string_body q triple cs' (c :: acc)
          | _ => None
          end
        else Some (rev acc, cs')
      else if is_newline c && negb triple then None
      else string_body q triple cs' (c :: acc)
  end.

Definition is_quote (c : ascii) : bool := (code c =? 39) || (code c =? 34).

(** A string literal whose opening quote [q] has been read. *)
Definition string_literal (q : ascii) (cs : list ascii)
  : option (list ascii * list ascii) :=
  match cs with
  | c2 :: c3 :: cs3 =>
      if Ascii.eqb c2 q && Ascii.eqb c3 q then string_body q true cs3 []
      else string_body q false cs []
  | _ => string_body q false cs []
  end.

Definition operators3 : list string := ["**="; "//="; ">>="; "<<="; "..."].
Definition operators2 : list string :=
  ["**"; "//"; ">>"; "<<"; "<="; ">="; "=="; "!="; "<>"; "->"; ":=";
   "+="; "-="; "*="; "/="; "%="; "&="; "|="; "^="; "@="].
Definition operators1 : list string :=
  ["+"; "-"; "*"; "/"; "%"; "@"; "&"; "|"; "^"; "~"; "<"; ">";
   "("; ")"; "["; "]"; "{"; "}"; ","; ":"; "."; ";"; "="].

Definition take_operator (k : nat) (table : list string) (cs : list ascii)
  : option (string * list ascii) :=
  let s := string_of_list_ascii (firstn k cs) in
  if (k <=? List.length cs)%nat && existsb (String.eqb s) table
  then Some (s, skipn k cs) else None.

(** The longest operator at the head of [cs]. *)
Definition operator_at (cs : list ascii) : option (string * list ascii) :=
  match take_operator 3 operators3 cs with
  | Some r => Some r
  | None =>
      match take_operator 2 operators2 cs with
      | Some r => Some r
      | None => take_operator 1 operators1 cs
      end
  end.

Definition opens (s : string) : bool :=
  (s =? "(")%string || (s =? "[")%string || (s =? "{")%string.
Definition closes (s : string) : bool :=
  (s =? ")")%string || (s =? "]")%string || (s =? "}")%string.

(** The column that the blanks at the start of a line reach: a tab
    goes to the next multiple of 8 and a form feed back to 0. *)
Fixpoint indentation (col : nat) (cs : list ascii) : nat * list ascii :=
  match cs with
  | c :: cs' =>
      if code c =? 32 then indentation (S col) cs'
      else if code c =? 9 then indentation ((col / 8 + 1) * 8)%nat cs'
      else if code c =? 12 then indentation 0%nat cs'
      else (col, cs)
  | [] => (col, cs)
  end.

(** [MAXLEVEL], the deepest nesting of brackets. *)
Definition max_level : nat := 200.

(** The token stream of a source text.  [depth] counts the open
    brackets, inside which line ends are blanks; [bol] holds at the
    start of a line outside them, where a blank or comment line gives
    no token and an indented one is an [IndentationError].  A
    backslash joins a line with the next, which must exist.  [None]
    is a tokenizer error. *)
Fixpoint tokens (fuel : nat) (depth : nat) (bol : bool) (cs : list ascii)
  : option (list token) :=
  match fuel with
  | O => None
  | S fuel' =>
      if bol then
        let '(col, rest) := indentation 0 cs in
        match rest with
        | [] => Some []
        | c :: rest' =>
            if is_newline c then tokens fuel' depth true rest'
            else if code c =? 35 then
              tokens fuel' depth true (snd (span (fun d => negb (is_newline d)) rest))
            else if (0 <? col)%nat then None
            else tokens fuel' depth false rest
        end
      else
        match cs with
        | [] => Some []
        | c :: cs' =>
            if is_blank c then tokens fuel' depth false cs'
            else if is_newline c then
              match depth with
              | O => option_map (cons NEWLINE) (tokens fuel' depth true cs')
              | S _ => tokens fuel' depth false cs'
              end
            else if code c =? 35 then
              tokens fuel' depth false
                     (snd (span (fun d => negb (is_newline d)) cs))
            else if code c =? 92 then
              match cs' with
              | d :: cs'' =>
                  if is_newline d then
                    match cs'' with
                    | [] => None
                    | _ :: _ => tokens fuel' depth false cs''
                    end
                  else None
              | [] => None
              end
            else if is_digit c
                    || ((code c =? 46)
                        && match cs' with d :: _ => is_digit d | [] => false end)
            then
              match (if is_digit c then number cs
                     else decimal_tail false [] cs) with
              | Some (l, rest) =>
                  option_map (cons (NUMBER l)) (tokens fuel' depth false rest)
              | None => None
              end
            else if is_name_start c then
              let '(nm, rest) := span is_name_char cs in
              match rest, string_prefix nm with
              | q :: rest', Some k =>
                  if is_quote q then
                    match string_literal q rest' with
                    | Some (body, rest'') =>
                        option_map (cons (STRING k (string_of_list_ascii body)))
                                   (tokens fuel' depth false rest'')
                    | None => None
                    end
                  else option_map (cons (NAME (string_of_list_ascii nm)))
                                  (tokens fuel' depth false rest)
              | _, _ =>
                  option_map (cons (NAME (string_of_list_ascii nm)))
                             (tokens fuel' depth false rest)
              end
            else if is_quote c then
              match string_literal c cs' with
              | Some (body, rest) =>
                  option_map (cons (STRING SStr (string_of_list_ascii body)))
                             (tokens fuel' depth false rest)
              | None => None
              end
            else
              match operator_at cs with
              | Some (s, rest) =>
                  let depth' := if opens s then S depth
                                else if closes s then pred depth
                                else depth in
                  if opens s && (max_level <=? depth)%nat then None
                  else option_map (cons (OP s))
                                  (tokens fuel' depth' false rest)
              | None => None
              end
        end
  end.

Definition tokenize (source : string) : option (list token) :=
  let cs := translate_newlines (list_ascii_of_string source) in
  tokens (2 * List.length cs + 2) 0 true cs.

(* ------------------------------------------------------------------ *)
(** ** [ast.parse(expr, mode="eval")]: the grammar

    A recursive-descent reading of the expression grammar of Python,
    one function per precedence level, from [expressions] down to
    [atom].  It covers what an arithmetic expression can be made of
    and, of the rest of the language, names, constants, strings,
    calls, attributes, subscripts, tuples, lists, comparisons, boolean
    operators and the conditional expression.  Lambdas,
    comprehensions, set and dict displays, slices, starred, named,
    await and yield expressions are refused here as syntax errors;
    CPython builds nodes for them that [_eval] refuses. *)

Definition keywords : list string :=
  ["False"; "None"; "True"; "and"; "as"; "assert"; "async"; "await";
   "break"; "class"; "continue"; "def"; "del"; "elif"; "else"; "except";
   "finally"; "for"; "from"; "global"; "if"; "import"; "in"; "is";
   "lambda"; "nonlocal"; "not"; "or"; "pass"; "raise"; "return"; "try";
   "while"; "with"; "yield"].

Definition is_keyword (s : string) : bool := existsb (String.eqb s) keywords.

Inductive level : Type :=
| expressions | expression | disjunction | conjunction | inversion
| comparison | bitwise_or | bitwise_xor | bitwise_and | shift_expr
| sum | term | factor | power | primary | atom.

Definition binary_operator (lv : level) (s : string) : option ast.operator :=
  match lv with
  | bitwise_or => if (s =? "|")%string then Some ast.BitOr else None
  | bitwise_xor => if (s =? "^")%string then Some ast.BitXor else None
  | bitwise_and => if (s =? "&")%string then Some ast.BitAnd else None
  | shift_expr =>
      if (s =? "<<")%string then Some ast.LShift
      else if (s =? ">>")%string then Some ast.RShift else None
  | sum =>
      if (s =? "+")%string then Some ast.Add
      else if (s =? "-")%string then Some ast.Sub else None
  | term =>
      if (s =? "*")%string then Some ast.Mult
      else if (s =? "/")%string then Some ast.Div
      else if (s =? "//")%string then Some ast.FloorDiv
      else if (s =? "%")%string then Some ast.Mod
      else if (s =? "@")%string then Some ast.MatMult else None
  | _ => None
  end.

Definition unary_operator (s : string) : option ast.unaryop :=
  if (s =? "-")%string then Some ast.USub
  else if (s =? "+")%string then Some ast.UAdd
  else if (s =? "~")%string then Some ast.Invert else None.

(** The comparison operator at the head of the tokens. *)
Definition compare_operator (ts : list token)
  : option (ast.cmpop * list token) :=
  match ts with
  | OP s :: ts' =>
      if (s =? "==")%string then Some (ast.Eq, ts')
      else if (s =? "!=")%string then Some (ast.NotEq, ts')
      else if (s =? "<")%string then Some (ast.Lt, ts')
      else if (s =? "<=")%string then Some (ast.LtE, ts')
      else if (s =? ">")%string then Some (ast.Gt, ts')
      else if (s =? ">=")%string then Some (ast.GtE, ts')
      else None
  | NAME s :: ts' =>
      if (s =? "in")%string then Some (ast.In, ts')
      else if (s =? "not")%string then
        match ts' with
        | NAME s' :: ts'' =>
            if (s' =? "in")%string then Some (ast.NotIn, ts'') else None
        | _ => None
        end
      else if (s =? "is")%string then
        match ts' with
        | NAME s' :: ts'' =>
            if (s' =? "not")%string then Some (ast.IsNot, ts'')
            else Some (ast.Is, ts')
        | _ => Some (ast.Is, ts')
        end
      else None
  | _ => None
  end.

Section Parser.
Context {FA : FloatArith}.

Definition parser : Type := list token -> option (ast.node * list token).

Definition constant_of_literal (l : num_literal) : ast.constant :=
  match l with
  | LInt z => ast.CInt z
  | LFloat m e => ast.CFloat (f_of_decimal m e)
  | LImag m e => ast.CComplex f_zero (f_of_decimal m e)
  end.

(** [operand (op operand)*], grouping to the left. *)
Fixpoint left_assoc (k : nat) (operand : parser)
    (ops : string -> option ast.operator) (lhs : ast.node)
    (ts : list token) : option (ast.node * list token) :=
  match k with
  | O => None
  | S k' =>
      match ts with
      | OP s :: ts' =>
          match ops s with
          | Some o =>
              match operand ts' with
              | Some (rhs, ts'') =>
                  left_assoc k' operand ops (ast.BinOp lhs o rhs) ts''
              | None => None
              end
          | None => Some (lhs, ts)
          end
      | _ => Some (lhs, ts)
      end
  end.

(** [(kw operand)*] after a first operand, for [and] and [or]. *)
Fixpoint keyword_chain (k : nat) (operand : parser) (kw : string)
    (ts : list token) : option (list ast.node * list token) :=
  match k with
  | O => None
  | S k' =>
      match ts with
      | NAME s :: ts' =>
          if (s =? kw)%string then
            match operand ts' with
            | Some (v, ts'') =>
                match keyword_chain k' operand kw ts'' with
                | Some (vs, r) => Some (v :: vs, r)
                | None => None
                end
            | None => None
            end
          else Some ([], ts)
      | _ => Some ([], ts)
      end
  end.

(** [(compare_op operand)*] after the left operand of a comparison. *)
Fixpoint compare_chain (k : nat) (operand : parser) (ts : list token)
  : option (list ast.cmpop * list ast.node * list token) :=
  match k with
  | O => None
  | S k' =>
      match compare_operator ts with
      | Some (o, ts') =>
          match operand ts' with
          | Some (v, ts'') =>
              match compare_chain k' operand ts'' with
              | Some (os, vs, r) => Some (o :: os, v :: vs, r)
              | None => None
              end
          | None => None
          end
      | None => Some ([], [], ts)
      end
  end.

Definition starts_with_op (s : string) (ts : list token)
  : option (list token) :=
  match ts with
  | OP s' :: ts' => if (s' =? s)%string then Some ts' else None
  | _ => None
  end.

Definition starts_with_name (s : string) (ts : list token)
  : option (list token) :=
  match ts with
  | NAME s' :: ts' => if (s' =? s)%string then Some ts' else None
  | _ => None
  end.

(** [(item ("," item)* [","])?] up to the closing bracket [close],
    which is consumed; the flag tells whether a comma was seen. *)
Fixpoint comma_list {A : Type} (k : nat)
    (item : list token -> option (A * list token)) (close : string)
    (ts : list token) : option (list A * bool * list token) :=
  match k with
  | O => None
  | S k' =>
      match starts_with_op close ts with
      | Some ts' => Some ([], false, ts')
      | None =>
          match item ts with
          | Some (v, ts') =>
              match starts_with_op close ts', starts_with_op "," ts' with
              | Some r, _ => Some ([v], false, r)
              | None, Some ts'' =>
                  match comma_list k' item close ts'' with
                  | Some (vs, _, r) => Some (v :: vs, true, r)
                  | None => None
                  end
              | None, None => None
              end
          | None => None
          end
      end
  end.

(** [("," item)*] with an optional last comma, for a tuple without
    brackets; [ts] starts after the first comma. *)
Fixpoint tuple_tail (k : nat) (item : parser) (ts : list token)
  : list ast.node * list token :=
  match k with
  | O => ([], ts)
  | S k' =>
      match item ts with
      | Some (v, ts') =>
          match starts_with_op "," ts' with
          | Some ts'' =>
              let '(vs, r) := tuple_tail k' item ts'' in (v :: vs, r)
          | None => ([v], ts')
          end
      | None => ([], ts)
      end
  end.

(** One argument of a call: [name=value] or a value. *)
Definition argument (item : parser) (ts : list token)
  : option ((option string * ast.node) * list token) :=
  match ts with
  | NAME a :: OP s :: ts' =>
      if (s =? "=")%string then
        if is_keyword a then None
        else match item ts' with
             | Some (v, r) => Some ((Some a, v), r)
             | None => None
             end
      else option_map (fun '(v, r) => ((None, v), r)) (item ts)
  | _ => option_map (fun '(v, r) => ((None, v), r)) (item ts)
  end.

(** Positional arguments come before keyword arguments. *)
Fixpoint split_arguments (args : list (option string * ast.node))
  : option (list ast.node * list (string * ast.node)) :=
  match args with
  | [] => Some ([], [])
  | (None, v) :: rest =>
      match split_arguments rest with
      | Some (ps, ks) => Some (v :: ps, ks)
      | None => None
      end
  | (Some a, v) :: rest =>
      match split_arguments rest with
      | Some ([], ks) => Some ([], (a, v) :: ks)
      | _ => None
      end
  end.

(** The trailers of a primary: attribute, call, subscript. *)
Fixpoint trailers (k : nat) (item : parser) (base : ast.node)
    (ts : list token) : option (ast.node * list token) :=
  match k with
  | O => None
  | S k' =>
      match ts with
      | OP s :: ts' =>
          if (s =? ".")%string then
            match ts' with
            | NAME a :: ts'' =>
                if is_keyword a then None
                else trailers k' item (ast.Attribute base a) ts''
            | _ => None
            end
          else if (s =? "(")%string then
            match comma_list (S (List.length ts')) (argument item) ")" ts' with
            | Some (args, _, r) =>
                match split_arguments args with
                | Some (ps, ks) => trailers k' item (ast.Call base ps ks) r
                | None => None
                end
            | None => None
            end
          else if (s =? "[")%string then
            match comma_list (S (List.length ts')) item "]" ts' with
            | Some ([], _, _) => None
            | Some ([v], false, r) => trailers k' item (ast.Subscript base v) r
            | Some (vs, _, r) =>
                trailers k' item (ast.Subscript base (ast.Tuple vs)) r
            | None => None
            end
          else Some (base, ts)
      | _ => Some (base, ts)
      end
  end.

(** Adjacent string literals make one node; bytes do not mix with
    text. *)
Fixpoint strings (k : string_kind) (acc : string) (ts : list token)
  : option (ast.node * list token) :=
  match ts with
  | STRING k' s :: ts' =>
      match k, k' with
      | SBytes, SBytes => strings SBytes (acc ++ s) ts'
      | SBytes, _ | _, SBytes => None
      | SStr, SStr => strings SStr (acc ++ s) ts'
      | _, _ => strings SFormat (acc ++ s) ts'
      end
  | _ =>
      Some (match k with
            | SStr => ast.Constant (ast.CStr acc)
            | SBytes => ast.Constant (ast.CBytes acc)
            | SFormat => ast.JoinedStr acc
            end, ts)
  end.

Fixpoint parse_level (fuel : nat) (lv : level) (ts : list token)
  : option (ast.node * list token) :=
  match fuel with
  | O => None
  | S fuel' =>
      let sub := parse_level fuel' in
      let loops := S (List.length ts) in
      match lv with
      | expressions =>
          match sub expression ts with
          | Some (e, ts') =>
              match starts_with_op "," ts' with
              | Some ts'' =>
                  let '(es, r) := tuple_tail loops (sub expression) ts'' in
                  Some (ast.Tuple (e :: es), r)
              | None => Some (e, ts')
              end
          | None => None
          end
      | expression =>
          match sub disjunction ts with
          | Some (body, ts') =>
              match starts_with_name "if" ts' with
              | Some ts1 =>
                  match sub disjunction ts1 with
                  | Some (test, ts2) =>
                      match starts_with_name "else" ts2 with
                      | Some ts3 =>
                          match sub expression ts3 with
                          | Some (orelse, r) =>
                              Some (ast.IfExp test body orelse, r)
                          | None => None
                          end
                      | None => None
                      end
                  | None => None
                  end
              | None => Some (body, ts')
              end
          | None => None
          end
      | disjunction =>
          match sub conjunction ts with
          | Some (v, ts') =>
              match keyword_chain loops (sub conjunction) "or" ts' with
              | Some ([], r) => Some (v, r)
              | Some (vs, r) => Some (ast.BoolOp ast.Or (v :: vs), r)
              | None => None
              end
          | None => None
          end
      | conjunction =>
          match sub inversion ts with
          | Some (v, ts') =>
              match keyword_chain loops (sub inversion) "and" ts' with
              | Some ([], r) => Some (v, r)
              | Some (vs, r) => Some (ast.BoolOp ast.And (v :: vs), r)
              | None => None
              end
          | None => None
          end
      | inversion =>
          match starts_with_name "not" ts with
          | Some ts' =>
              match sub inversion ts' with
              | Some (v, r) => Some (ast.UnaryOp ast.Not v, r)
              | None => None
              end
          | None => sub comparison ts
          end
      | comparison =>
          match sub bitwise_or ts with
          | Some (v, ts') =>
              match compare_chain loops (sub bitwise_or) ts' with
              | Some ([], _, r) => Some (v, r)
              | Some (os, vs, r) => Some (ast.Compare v os vs, r)
              | None => None
              end
          | None => None
          end
      | bitwise_or | bitwise_xor | bitwise_and | shift_expr | sum | term =>
          let next := match lv with
                      | bitwise_or => bitwise_xor
                      | bitwise_xor => bitwise_and
                      | bitwise_and => shift_expr
                      | shift_expr => sum
                      | sum => term
                      | _ => factor
                      end in
          match sub next ts with
          | Some (v, ts') =>
              left_assoc loops (sub next) (binary_operator lv) v ts'
          | None => None
          end
      | factor =>
          match ts with
          | OP s :: ts' =>
              match unary_operator s with
              | Some u =>
                  match sub factor ts' with
                  | Some (v, r) => Some (ast.UnaryOp u v, r)
                  | None => None
                  end
              | None => sub power ts
              end
          | _ => sub power ts
          end
      | power =>
          match sub primary ts with
          | Some (b, ts') =>
              match starts_with_op "**" ts' with
              | Some ts'' =>
                  match sub factor ts'' with
                  | Some (e, r) => Some (ast.BinOp b ast.Pow e, r)
                  | None => None
                  end
              | None => Some (b, ts')
              end
          | None => None
          end
      | primary =>
          match sub atom ts with
          | Some (a, ts') => trailers loops (sub expression) a ts'
          | None => None
          end
      | atom =>
          match ts with
          | NUMBER l :: ts' =>
              Some (ast.Constant (constant_of_literal l), ts')
          | NAME s :: ts' =>
              if (s =? "True")%string
              then Some (ast.Constant (ast.CBool true), ts')
              else if (s =? "False")%string
              then Some (ast.Constant (ast.CBool false), ts')
              else if (s =? "None")%string
              then Some (ast.Constant ast.CNone, ts')
              else if is_keyword s then None
              else Some (ast.Name s, ts')
          | STRING k s :: ts' => strings k s ts'
          | OP s :: ts' =>
              if (s =? "...")%string
              then Some (ast.Constant ast.CEllipsis, ts')
              else if (s =? "(")%string then
                match comma_list loops (sub expression) ")" ts' with
                | Some ([v], false, r) => Some (v, r)
                | Some (vs, _, r) => Some (ast.Tuple vs, r)
                | None => None
                end
              else if (s =? "[")%string then
                match comma_list loops (sub expression) "]" ts' with
                | Some (vs, _, r) => Some (ast.List vs, r)
                | None => None
                end
              else None
          | NEWLINE :: _ | [] => None
          end
      end
  end.

(** The whole input is one expression, then line ends only. *)
Definition parse_tokens (ts : list token) : option ast.node :=
  match parse_level (17 * (List.length ts + 1)) expressions ts with
  | Some (e, rest) =>
      if forallb (fun t => match t with NEWLINE => true | _ => false end) rest
      then Some (ast.Expression e) else None
  | None => None
  end.

(** [ast.parse(source, mode="eval")]; every tokenizer or grammar
    error is a [SyntaxError] (or its subclass [IndentationError]),
    which the caller does not tell apart. *)
Definition parse (source : string) : result ast.node :=
  match tokenize source with
  | Some ts =>
      match parse_tokens ts with
      | Some t => Ok t
      | None => Raise SyntaxError
      end
  | None => Raise SyntaxError
  end.

(** [safe_eval] (lines 44-69): any exception of the body is replaced
    by the [ValueError] of line 69, which names the input and is
    raised [from] the exception caught.  The outcome is the value
    returned, or that [ValueError] with its cause. *)
Inductive outcome : Type :=
| Returned (v : value)
| Raised (e : exn) (cause : exn).

Definition safe_eval (expr : string) : outcome :=
  match (node <- parse expr ;; _eval node) with
  | Ok v => Returned v
  | Raise e => Raised (ValueError ("Invalid expression: " ++ expr)) e
  end.

End Parser.

(* ------------------------------------------------------------------ *)
(** ** Vocabulary of the properties *)

(** The tokens of arithmetic: numbers, the seven operators (the minus
    also as a sign), parentheses and line ends. *)
Definition arithmetic_token (t : token) : bool :=
  match t with
  | NUMBER _ | NEWLINE => true
  | OP s =>
      existsb (String.eqb s) ["+"; "-"; "*"; "/"; "//"; "%"; "**"; "("; ")"]
  | NAME _ | STRING _ _ => false
  end.

(** The ASCII characters that [str.isspace] accepts: tab, line feed,
    vertical tab, form feed, carriage return, the four separators
    [\x1c] to [\x1f], and the space. *)
Definition is_whitespace (c : ascii) : bool :=
  in_range 9 13 c || in_range 28 32 c.

(** The UTF-8 encodings of the other characters that [str.isspace]
    accepts: U+0085, U+00A0, U+1680, U+2000 to U+200A, U+2028, U+2029,
    U+202F, U+205F and U+3000. *)
Definition unicode_whitespace : list string :=
  map (fun bytes => string_of_list_ascii (map ascii_of_nat bytes))
    [ [194; 133]; [194; 160]; [225; 154; 128];
      [226; 128; 128]; [226; 128; 129]; [226; 128; 130]; [226; 128; 131];
      [226; 128; 132]; [226; 128; 133]; [226; 128; 134]; [226; 128; 135];
      [226; 128; 136]; [226; 128; 137]; [226; 128; 138];
      [226; 128; 168]; [226; 128; 169]; [226; 128; 175];
      [226; 129; 159]; [227; 128; 128] ]%nat.

(** A string of whitespace characters only; the empty string is one. *)
Inductive whitespace_only : string -> Prop :=
| ws_empty : whitespace_only ""
| ws_ascii c s :
    is_whitespace c = true -> whitespace_only s ->
    whitespace_only (String c s)
| ws_unicode u s :
    In u unicode_whitespace -> whitespace_only s ->
    whitespace_only (u ++ s).

(** A byte of a whitespace character, ASCII or not. *)
Definition is_space_byte (c : ascii) : bool :=
  is_whitespace c || (128 <=? code c).

Definition name_or_newline (t : token) : bool :=
  match t with NAME _ | NEWLINE => true | _ => false end.

Section Vocabulary.
Context {FA : FloatArith}.

(** Every node of a tree, the root first. *)
Fixpoint nodes (t : ast.node) : list ast.node :=
  t ::
  match t with
  | ast.Expression body => nodes body
  | ast.BinOp l _ r => nodes l ++ nodes r
  | ast.UnaryOp _ e => nodes e
  | ast.BoolOp _ vs => flat_map nodes vs
  | ast.Compare l _ cs => nodes l ++ flat_map nodes cs
  | ast.IfExp c a b => nodes c ++ nodes a ++ nodes b
  | ast.Call f args kws =>
      nodes f ++ flat_map nodes args
              ++ flat_map (fun kw => nodes (snd kw)) kws
  | ast.Attribute v _ => nodes v
  | ast.Subscript v i => nodes v ++ nodes i
  | ast.List es | ast.Tuple es => flat_map nodes es
  | ast.Constant _ | ast.Name _ | ast.JoinedStr _ => []
  end%list.

(** The seven binary operators of the table. *)
Definition allowed_binary (o : ast.operator) : bool :=
  match o with
  | ast.Add | ast.Sub | ast.Mult | ast.Div | ast.Mod | ast.Pow
  | ast.FloorDiv => true
  | _ => false
  end.

(** The shapes that [_eval] goes through: a numeric literal, a binary
    node with an operator of the table, a unary minus; and the root. *)
Definition allowed_shape (t : ast.node) : bool :=
  match t with
  | ast.Expression _ => true
  | ast.Constant c => is_Num c
  | ast.BinOp _ o _ => allowed_binary o
  | ast.UnaryOp ast.USub _ => true
  | _ => false
  end.


Definition is_zero_value (v : value) : bool :=
  match v with
  | VInt z => z =? 0
  | VFloat x => f_is_zero x
  | VComplex re im => f_is_zero re && f_is_zero im
  end.

(** A division, modulo or integer division whose right operand
    evaluates to zero. *)
Definition divides_by_zero (t : ast.node) : Prop :=
  match t with
  | ast.BinOp _ o r =>
      (o = ast.Div \/ o = ast.Mod \/ o = ast.FloorDiv) /\
      exists v, _eval r = Ok v /\ is_zero_value v = true
  | _ => False
  end.

(** A tree built only from numeric literals, unary minus and the seven
    binary operators. *)
Definition arithmetic (t : ast.node) : bool := forallb allowed_shape (nodes t).

Definition tokens_ok (used : list token) : Prop :=
  forallb arithmetic_token used = true.

(** A parser is sound when an arithmetic result accounts for the
    tokens it took. *)
Definition sound (p : parser) : Prop :=
  forall ts t rest, p ts = Some (t, rest) -> arithmetic t = true ->
  exists used, ts = (used ++ rest)%list /\ tokens_ok used.


(** The failure of [safe_eval] on [expr]: the [ValueError] that names
    the input, whatever it was raised from. *)
Definition EvaluationError (expr : string) (o : outcome) : Prop :=
  exists cause, o = Raised (ValueError ("Invalid expression: " ++ expr)) cause.

End Vocabulary.

(* ------------------------------------------------------------------ *)
(** ** The value that the specification expects

    "The mathematically correct value" of an expression over integer
    literals, read off the tree in the integers: sum, difference,
    product and power as in arithmetic, the integer division as the
    floor of the quotient and the modulo as what it leaves.  Nothing
    is expected of a division by zero, of a negative exponent or of
    [/], whose values are not integers. *)
Section Reference.
Context {FA : FloatArith}.


End Reference.

(* ------------------------------------------------------------------ *)
(** ** The evaluator in its environment

    What a call of [safe_eval] can see and touch: the module global
    [ALLOWED_OPERATORS], a dict that any code of the process could
    rebind or update, and the output streams.  The walk is written
    once more with this world threaded through every step, each
    lookup of the table reading the world of that moment. *)
Module Stateful.

Record world : Type := {
  operators : list (ast.class * callable);
  output : list string
}.

Section Walk.
Context {FA : FloatArith}.

Definition M (A : Type) : Type := world -> result A * world.

Definition throw {A : Type} (e : exn) : M A := fun w => (Raise e, w).
Definition lift {A : Type} (r : result A) : M A := fun w => (r, w).
Definition read_operators : M (list (ast.class * callable)) :=
  fun w => (Ok (operators w), w).

Definition mbind {A B : Type} (m : M A) (k : A -> M B) : M B :=
  fun w =>
    match m w with
    | (Ok a, w') => k a w'
    | (Raise e, w') => (Raise e, w')
    end.

Fixpoint _eval (node : ast.node) : M value :=
  match node with
  | ast.Expression body => _eval body
  | ast.Constant c =>
      if is_Num c then lift (n c) else throw unsupported
  | ast.BinOp node_left op node_right =>
      mbind read_operators (fun d =>
      if dict_contains d (ast.operator_class op) then
        mbind read_operators (fun d' =>
        mbind (lift (getitem d' (ast.operator_class op))) (fun f =>
        mbind (_eval node_left) (fun a =>
        mbind (_eval node_right) (fun b =>
        lift (call f [a; b])))))
      else throw unsupported)
  | ast.UnaryOp op operand =>
      mbind read_operators (fun d =>
      if dict_contains d (ast.unaryop_class op) then
        mbind read_operators (fun d' =>
        mbind (lift (getitem d' (ast.unaryop_class op))) (fun f =>
        mbind (_eval operand) (fun a =>
        lift (call f [a]))))
      else throw unsupported)
  | _ => throw unsupported
  end.

Definition safe_eval (expr : string) : world -> outcome * world :=
  fun w =>
    match mbind (lift (parse expr)) _eval w with
    | (Ok v, w') => (Returned v, w')
    | (Raise e, w') =>
        (Raised (ValueError ("Invalid expression: " ++ expr)) e, w')
    end.

End Walk.
End Stateful.

(* ------------------------------------------------------------------ *)
(** ** An instance: IEEE 754 binary64

    The floats of CPython on the usual platforms, on the standard
    library's [spec_float] with 53 bits of precision.  Sums, products
    and quotients round to nearest even; conversions from integers and
    decimals round once; [float_rem] and [float_floor_div] follow
    [floatobject.c] over an exact [fmod].  The general powers go
    through the C library's [pow], [hypot], [atan2], [exp], [sin] and
    [cos], whose roundings are not fixed by any standard: here a power
    with an integral exponent is the exact power rounded once, and any
    other is left as [nan].  No theorem below depends on the instance;
    it serves to run the evaluator on closed inputs. *)
Module binary64.

Definition prec : Z := 53.
Definition emax : Z := 1024.

Definition add := SFadd prec emax.
Definition sub := SFsub prec emax.
Definition mul := SFmul prec emax.
Definition div := SFdiv prec emax.
Definition opp := SFopp.
Definition ltb := SFltb.

Definition of_Z (z : Z) : spec_float := binary_normalize prec emax z 0 false.

(** The quotient [a / b] of two integers, [b] not zero, rounded once. *)
Definition of_ratio (a b : Z) : spec_float :=
  let s := xorb (a <? 0) (b <? 0) in
  match Z.abs a with
  | 0 => S754_zero s
  | ma =>
      let '(mz, ez, lz) := SFdiv_core_binary prec emax ma 0 (Z.abs b) 0 in
      binary_round_aux prec emax s mz ez lz
  end.

Definition of_decimal (m e : Z) : spec_float :=
  if 0 <=? e then of_Z (m * 10 ^ e) else of_ratio m (10 ^ (- e)).

Definition finite_or_overflow (x : spec_float) : option spec_float :=
  match x with
  | S754_infinity _ => None
  | _ => Some x
  end.

Definition is_zero (x : spec_float) : bool :=
  match x with S754_zero _ => true | _ => false end.

Definition sign (x : spec_float) : bool :=
  match x with
  | S754_zero s | S754_infinity s | S754_finite s _ _ => s
  | S754_nan => false
  end.

Definition copysign_zero (x : spec_float) : spec_float := S754_zero (sign x).

(** C's [fmod]: exact, with the sign of [x]. *)
Definition fmod (x y : spec_float) : spec_float :=
  match x, y with
  | S754_nan, _ | _, S754_nan | S754_infinity _, _ | _, S754_zero _ =>
      S754_nan
  | _, S754_infinity _ | S754_zero _, _ => x
  | S754_finite sx mx ex, S754_finite _ my ey =>
      let e := Z.min ex ey in
      let r := Z.rem (Z.pos mx * 2 ^ (ex - e)) (Z.pos my * 2 ^ (ey - e)) in
      binary_normalize prec emax (if sx then - r else r) e sx
  end.

(** C's [floor]. *)
Definition floor (x : spec_float) : spec_float :=
  match x with
  | S754_finite s m e =>
      if 0 <=? e then x
      else
        let q := (if s then Z.neg m else Z.pos m) / 2 ^ (- e) in
        binary_normalize prec emax q 0 s
  | _ => x
  end.

Definition one : spec_float := of_Z 1.
Definition half : spec_float := of_ratio 1 2.

(** [float_rem] past its zero check. *)
Definition float_rem (vx wx : spec_float) : spec_float :=
  let m := fmod vx wx in
  if is_zero m then copysign_zero wx
  else if negb (Bool.eqb (ltb wx (S754_zero false)) (ltb m (S754_zero false)))
       then add m wx else m.

(** [float_floor_div] past its zero check. *)
Definition float_floor_div (vx wx : spec_float) : spec_float :=
  let m := fmod vx wx in
  let d := div (sub vx m) wx in
  let d' :=
    if is_zero m then d
    else if negb (Bool.eqb (ltb wx (S754_zero false))
                           (ltb m (S754_zero false)))
         then sub d one else d in
  if is_zero d' then copysign_zero (div vx wx)
  else
    let f := floor d' in
    if ltb half (sub d' f) then add f one else f.

(** The integer that a float holds, when it holds one. *)
Definition integral (x : spec_float) : option Z :=
  match x with
  | S754_zero _ => Some 0
  | S754_finite s m e =>
      let v := if s then Z.neg m else Z.pos m in
      if 0 <=? e then Some (v * 2 ^ e)
      else if v mod 2 ^ (- e) =? 0 then Some (v / 2 ^ (- e)) else None
  | _ => None
  end.

(** [x ^ k] for an integer [k], rounded once. *)
Definition pow_integral (x : spec_float) (k : Z) : result spec_float :=
  match x with
  | S754_finite s m e =>
      let v := if s then Z.neg m else Z.pos m in
      let r :=
        if 0 <=? k then binary_normalize prec emax (v ^ k) (e * k) false
        else
          let n := - k in
          if 0 <=? e then of_ratio 1 (v ^ n * 2 ^ (e * n))
          else of_ratio (2 ^ (- e * n)) (v ^ n) in
      match r with
      | S754_infinity _ => Raise OverflowError
      | _ => Ok r
      end
  | S754_zero s =>
      if k =? 0 then Ok one
      else if k <? 0 then Raise ZeroDivisionError
      else Ok (S754_zero (s && Z.odd k))
  | S754_infinity s =>
      if k =? 0 then Ok one
      else if k <? 0 then Ok (S754_zero (s && Z.odd k))
      else Ok (S754_infinity (s && Z.odd k))
  | S754_nan => if k =? 0 then Ok one else Ok S754_nan
  end.

Definition float_pow (x y : spec_float)
  : result (spec_float + spec_float * spec_float) :=
  match integral y with
  | Some k => r <- pow_integral x k ;; Ok (inl r)
  | None => Ok (inl S754_nan)
  end.

(** [_Py_c_quot] past its zero check. *)
Definition c_quot (a b : spec_float * spec_float)
  : spec_float * spec_float :=
  let '(ar, ai) := a in
  let '(br, bi) := b in
  let abr := SFabs br in
  let abi := SFabs bi in
  if SFleb abi abr then
    let ratio := div bi br in
    let denom := add br (mul bi ratio) in
    (div (add ar (mul ai ratio)) denom, div (sub ai (mul ar ratio)) denom)
  else if SFleb abr abi then
    let ratio := div br bi in
    let denom := add (mul br ratio) bi in
    (div (add (mul ar ratio) ai) denom, div (sub (mul ai ratio) ar) denom)
  else (S754_nan, S754_nan).

Definition c_mul (a b : spec_float * spec_float)
  : spec_float * spec_float :=
  (sub (mul (fst a) (fst b)) (mul (snd a) (snd b)),
   add (mul (fst a) (snd b)) (mul (snd a) (fst b))).

(** [c_powu]: repeated squaring, for a small positive exponent. *)
Fixpoint c_powu (x : spec_float * spec_float) (k : positive)
  : spec_float * spec_float :=
  match k with
  | xH => x
  | xO k' => let h := c_powu x k' in c_mul h h
  | xI k' => let h := c_powu x k' in c_mul x (c_mul h h)
  end.

Definition complex_pow (a b : spec_float * spec_float)
  : result (spec_float * spec_float) :=
  let c_one := (one, S754_zero false) in
  if is_zero (fst b) && is_zero (snd b) then Ok c_one
  else if is_zero (fst a) && is_zero (snd a) then
    if negb (is_zero (snd b)) || ltb (fst b) (S754_zero false)
    then Raise ZeroDivisionError
    else Ok (S754_zero false, S754_zero false)
  else
    match (if is_zero (snd b) then integral (fst b) else None) with
    | Some (Z.pos k) =>
        if Z.pos k <=? 100 then Ok (c_powu a k)
        else Ok (S754_nan, S754_nan)
    | Some (Z.neg k) =>
        if Z.pos k <=? 100 then Ok (c_quot c_one (c_powu a k))
        else Ok (S754_nan, S754_nan)
    | _ => Ok (S754_nan, S754_nan)
    end.

Lemma zero_literal : is_zero (of_decimal 0 0) = true.
Proof. reflexivity. Qed.

Lemma zero_integer :
  forall x, finite_or_overflow (of_Z 0) = Some x -> is_zero x = true.
Proof. intros x H. vm_compute in H. injection H as <-. reflexivity. Qed.

End binary64.

Definition binary64_arith : FloatArith := {|
  float := spec_float;
  f_of_decimal := binary64.of_decimal;
  f_of_int z := binary64.finite_or_overflow (binary64.of_Z z);
  f_is_zero := binary64.is_zero;
  f_neg := binary64.opp;
  f_add := binary64.add;
  f_sub := binary64.sub;
  f_mul := binary64.mul;
  f_div := binary64.div;
  f_mod := binary64.float_rem;
  f_floordiv := binary64.float_floor_div;
  f_pow := binary64.float_pow;
  int_true_divide a b := binary64.finite_or_overflow (binary64.of_ratio a b);
  c_quot := binary64.c_quot;
  c_pow := binary64.complex_pow;
  f_zero_is_zero := binary64.zero_literal;
  f_of_int_zero := binary64.zero_integer
|}.

(** [safe_eval] over binary64. *)
Definition eval64 : string -> @outcome binary64_arith :=
  @safe_eval binary64_arith.

(* ------------------------------------------------------------------ *)
(** ** The message handler [calculate] (lines 81-88)

    The handler strips the text of the message, evaluates it, and
    replies with the result or with a fixed text.  It needs, of
    Python, [str.strip] and the text of a number (an f-string with no
    format takes [str] of the value); and of the chat library,
    [reply_text], which is kept abstract: a call that changes the
    chat and may fail. *)

(** The whitespace characters, as the byte strings that encode them. *)
Definition whitespace_chars : list string :=
  (map (fun n => String (ascii_of_nat n) "")
       [9; 10; 11; 12; 13; 28; 29; 30; 31; 32]%nat
   ++ unicode_whitespace)%list.

Fixpoint drop (k : nat) (s : string) : string :=
  match k, s with
  | S k', String _ s' => drop k' s'
  | _, _ => s
  end.

Fixpoint starts_with (u s : string) : bool :=
  match u, s with
  | EmptyString, _ => true
  | String a u', String b s' => Ascii.eqb a b && starts_with u' s'
  | String _ _, EmptyString => false
  end.

(** The rest of [s] after the first string of [table] that it starts
    with. *)
Fixpoint after_prefix (table : list string) (s : string) : option string :=
  match table with
  | [] => None
  | u :: table' =>
      if starts_with u s then Some (drop (String.length u) s)
      else after_prefix table' s
  end.

(** Leading characters of [table] removed, one at a time. *)
Fixpoint strip_leading (fuel : nat) (table : list string) (s : string)
  : string :=
  match fuel with
  | O => s
  | S fuel' =>
      match after_prefix table s with
      | Some rest => strip_leading fuel' table rest
      | None => s
      end
  end.

Fixpoint reverse (s acc : string) : string :=
  match s with
  | EmptyString => acc
  | String c s' => reverse s' (String c acc)
  end.

Definition lstrip (s : string) : string :=
  strip_leading (String.length s) whitespace_chars s.

Definition rstrip (s : string) : string :=
  reverse (strip_leading (String.length s)
                         (map (fun u => reverse u "") whitespace_chars)
                         (reverse s "")) "".

(** [str.strip()]: the left end first, then the right end. *)
Definition strip (s : string) : string := rstrip (lstrip s).

(** The decimal digits of a natural number, the most significant
    first. *)
Definition digit_char (d : Z) : ascii := ascii_of_N (Z.to_N (48 + d)).

Fixpoint decimal_digits (fuel : nat) (n : Z) (acc : list ascii)
  : list ascii :=
  match fuel with
  | O => acc
  | S fuel' =>
      let acc' := digit_char (n mod 10) :: acc in
      if n <? 10 then acc' else decimal_digits fuel' (n / 10) acc'
  end.

Definition decimal (n : Z) : list ascii :=
  decimal_digits (S (Z.to_nat (Z.log2 n))) n [].

(** [str] of an [int] whatever its size. *)
Definition int_text (z : Z) : string :=
  if z <? 0 then String "-" (string_of_list_ascii (decimal (- z)))
  else string_of_list_ascii (decimal z).

(** [str] of an [int]: more than [int_max_str_digits] digits are a
    [ValueError]. *)
Definition str_int (z : Z) : result string :=
  if (int_max_str_digits <? List.length (decimal (Z.abs z)))%nat
  then Raise (ValueError "Exceeds the limit (4300 digits) for integer string conversion; use sys.set_int_max_str_digits() to increase the limit")
  else Ok (int_text z).

(** What [reply_text] did. *)
Inductive sent : Type := Delivered | Failed.

(** How the handler ended: normally, or with the exception of its
    last [reply_text]. *)
Inductive handled : Type := Done | Escaped.

Definition invalid_reply : string := "❌ Invalid expression. Try again!".

Section Handler.
Context {FA : FloatArith}.
(** [repr] of a float and of a complex number *)
Variable repr_float : float -> string.
Variable repr_complex : float -> float -> string.
(** the chat, and [update.message.reply_text] *)
Variable chat : Type.
Variable reply_text : string -> chat -> sent * chat.

Definition str (v : value) : result string :=
  match v with
  | VInt z => str_int z
  | VFloat x => Ok (repr_float x)
  | VComplex re im => Ok (repr_complex re im)
  end.

(** The text of the first reply: the body of the [try] up to the
    call of [reply_text]. *)
Definition result_text (expr : string) : result string :=
  match safe_eval expr with
  | Returned v => r <- str v ;; Ok ("Result: " ++ r)
  | Raised e _ => Raise e
  end.

Definition calculate (text : string) (c : chat) : handled * chat :=
  let expr := strip text in
  let fallback c' :=
    match reply_text invalid_reply c' with
    | (Delivered, c'') => (Done, c'')
    | (Failed, c'') => (Escaped, c'')
    end in
  match result_text expr with
  | Ok message =>
      match reply_text message c with
      | (Delivered, c') => (Done, c')
      | (Failed, c') => fallback c'
      end
  | Raise _ => fallback c
  end.

End Handler.

(** A chat that takes every message: it is the list of the messages
    sent, the last one first. *)
Definition record (message : string) (log : list string)
  : sent * list string :=
  (Delivered, message :: log).

(** *** The text of a binary64 float

    [repr] of a float is the shortest string of decimal digits that
    reads back as the same float, the nearest to it among the
    shortest, laid out with a point when its exponent is from -4 to
    16 and with an exponent otherwise. *)
Module repr64.

Definition same (x y : spec_float) : bool :=
  match SFcompare x y with Some Eq => true | _ => false end.

(** [n / d < 10^k], for positive [n] and [d]. *)
Definition below_power (n d k : Z) : bool :=
  if 0 <=? k then n <? 10 ^ k * d else n * 10 ^ (- k) <? d.

(** The least [k] from [k0] on with [n / d < 10^k]. *)
Fixpoint decimal_point (fuel : nat) (n d k0 : Z) : Z :=
  match fuel with
  | O => k0
  | S fuel' =>
      if below_power n d k0 then k0 else decimal_point fuel' n d (k0 + 1)
  end.

(** The shortest integer [c], of [digits] digits or more, with
    [c * 10^(k - digits)] reading back as [x = n / d]; of the two
    neighbours of [x] the nearer one, the even one on a tie. *)
Fixpoint shortest (fuel : nat) (x : spec_float) (n d k digits : Z)
  : Z * Z :=
  let scale := digits - k in
  let num := if 0 <=? scale then n * 10 ^ scale else n in
  let den := if 0 <=? scale then d else d * 10 ^ (- scale) in
  let lo := num / den in
  let r := num mod den in
  let hi := lo + 1 in
  let lo_ok := same (binary64.of_decimal lo (- scale)) x in
  let hi_ok := negb (r =? 0) && same (binary64.of_decimal hi (- scale)) x in
  let nearest :=
    match 2 * r ?= den with
    | Lt => lo
    | Gt => hi
    | Eq => if Z.even lo then lo else hi
    end in
  match fuel with
  | O => (nearest, - scale)
  | S fuel' =>
      if lo_ok && hi_ok then (nearest, - scale)
      else if lo_ok then (lo, - scale)
      else if hi_ok then (hi, - scale)
      else shortest fuel' x n d k (digits + 1)
  end.

Fixpoint drop_zeros (rev_digits : list ascii) (count : Z) : list ascii * Z :=
  match rev_digits with
  | c :: rest =>
      if (code c =? 48) && negb (match rest with [] => true | _ => false end)
      then drop_zeros rest (count + 1) else (rev_digits, count)
  | [] => ([], count)
  end.

(** The digits of a positive finite float and the place of its
    point: the float is [0.d1d2...dn * 10^point]. *)
Definition digits_of (x : spec_float) (m : positive) (e : Z)
  : list ascii * Z :=
  let n := if 0 <=? e then Z.pos m * 2 ^ e else Z.pos m in
  let d := if 0 <=? e then 1 else 2 ^ (- e) in
  let k0 := (Z.log2 n - Z.log2 d - 1) * 30103 / 100000 - 1 in
  let k := decimal_point 8 n d k0 in
  let '(c, e10) := shortest 16 x n d k 1 in
  let '(rev_ds, zeros) := drop_zeros (rev (decimal c)) 0 in
  (rev rev_ds, Z.of_nat (List.length rev_ds) + zeros + e10).

Definition zeros (k : Z) : list ascii := repeat "0"%char (Z.to_nat k).

(** The layout of [format_float_short] for the code [r]; [dot_0]
    adds [.0] to a number without fraction. *)
Definition layout (ds : list ascii) (point : Z) (dot_0 : bool)
  : list ascii :=
  let n := Z.of_nat (List.length ds) in
  if (point <=? -4) || (16 <? point) then
    let ex := point - 1 in
    let exd := decimal (Z.abs ex) in
    (firstn 1 ds
     ++ match skipn 1 ds with [] => [] | rest => "."%char :: rest end
     ++ ["e"%char; if ex <? 0 then "-"%char else "+"%char]
     ++ (if (List.length exd <? 2)%nat then "0"%char :: exd else exd))%list
  else if point <=? 0 then
    ("0"%char :: "."%char :: zeros (- point) ++ ds)%list
  else if n <=? point then
    (ds ++ zeros (point - n)
        ++ if dot_0 then ["."%char; "0"%char] else [])%list
  else
    (firstn (Z.to_nat point) ds ++ "."%char :: skipn (Z.to_nat point) ds)%list.

(** [PyOS_double_to_string(x, 'r', 0, flags)]: [dot_0] and
    [always_sign] are its flags [Py_DTSF_ADD_DOT_0] and
    [Py_DTSF_SIGN]. *)
Definition double_to_string (x : spec_float) (dot_0 always_sign : bool)
  : string :=
  let sign_of (s : bool) :=
    if s then "-" else if always_sign then "+" else "" in
  match x with
  | S754_nan => (if always_sign then "+" else "") ++ "nan"
  | S754_infinity s => sign_of s ++ "inf"
  | S754_zero s => sign_of s ++ (if dot_0 then "0.0" else "0")
  | S754_finite s m e =>
      let '(ds, point) := digits_of (S754_finite false m e) m e in
      sign_of s ++ string_of_list_ascii (layout ds point dot_0)
  end.

Definition repr_float (x : spec_float) : string :=
  double_to_string x true false.

(** [complex_repr]: the imaginary part alone when the real part is
    the positive zero. *)
Definition repr_complex (re im : spec_float) : string :=
  match re with
  | S754_zero false => double_to_string im false false ++ "j"
  | _ =>
      "(" ++ double_to_string re false false
          ++ double_to_string im false true ++ "j)"
  end.

End repr64.

(** The handler over binary64 and the recording chat. *)
Definition calculate64 : string -> list string -> handled * list string :=
  @calculate binary64_arith repr64.repr_float repr64.repr_complex
             (list string) record.

(* ------------------------------------------------------------------ *)
(** ** Vocabulary of the handler's properties *)

(** A string made of strings of [table], one after the other. *)
Inductive all_in (table : list string) : string -> Prop :=
| all_in_nil : all_in table ""
| all_in_cons u s : In u table -> all_in table s -> all_in table (u ++ s).

(** A table is a code when the string that follows one of its words
    is found again by [after_prefix], and no word is empty. *)
Definition is_code (table : list string) : Prop :=
  (forall u s, In u table -> after_prefix table (u ++ s) = Some s) /\
  Forall (fun u => u <> "") table.

(** [strip_leading] with the fuel that the text needs. *)
Definition stripl (table : list string) (s : string) : string :=
  strip_leading (String.length s) table s.

(** The whitespace characters read from their last byte. *)
Definition reversed_whitespace : list string :=
  map (fun u => reverse u "") whitespace_chars.

(** The bytes 128 to 191, which only continue a character. *)
Definition is_continuation (c : ascii) : bool := in_range 128 191 c.

Fixpoint continuation_only (u : string) : bool :=
  match u with
  | EmptyString => true
  | String c u' => is_continuation c && continuation_only u'
  end.

(** Every byte of a whitespace character after the first continues
    it. *)
Definition well_formed (u : string) : bool :=
  match u with
  | EmptyString => false
  | String _ u' => continuation_only u'
  end.

(** One more digit at the right of a decimal number. *)
Definition step (acc : Z) (d : ascii) : Z := acc * 10 + digit_value d.

(** The visible characters of ASCII. *)
Definition visible : ascii -> bool := in_range 33 126.

Definition head_outside (u : string) : bool :=
  match u with
  | String x _ => negb (visible x)
  | EmptyString => false
  end.

Section HandlerVocabulary.
Context {FA : FloatArith}.
Variable repr_float : float -> string.
Variable repr_complex : float -> float -> string.


(** The handler in a chat that takes every reply. *)
Definition answer (text : string) (log : list string)
  : handled * list string :=
  calculate repr_float repr_complex (list string) record text log.

End HandlerVocabulary.

(* ------------------------------------------------------------------ *)
(** ** Properties of the tree walk *)

Section WalkProperties.
Context {FA : FloatArith}.

(** The table holds exactly the seven binary operators and the unary
    minus. *)
Lemma table_binary o :
  dict_contains ALLOWED_OPERATORS (ast.operator_class o) = allowed_binary o.
Proof. destruct o; reflexivity. Qed.

Lemma table_unary u :
  dict_contains ALLOWED_OPERATORS (ast.unaryop_class u)
  = match u with ast.USub => true | _ => false end.
Proof. destruct u; reflexivity. Qed.

Lemma contains_get {V : Type} (d : list (ast.class * V)) k :
  dict_contains d k = true -> exists v, dict_get d k = Some v.
Proof.
  unfold dict_contains. destruct (dict_get d k) as [v|]; [eauto | discriminate].
Qed.

Lemma eval_BinOp_allowed l o r f :
  dict_get ALLOWED_OPERATORS (ast.operator_class o) = Some f ->
  _eval (ast.BinOp l o r)
  = (a <- _eval l ;; b <- _eval r ;; call f [a; b]).
Proof.
  intros H. simpl. unfold dict_contains, getitem. rewrite H. reflexivity.
Qed.

Lemma eval_UnaryOp_allowed u x f :
  dict_get ALLOWED_OPERATORS (ast.unaryop_class u) = Some f ->
  _eval (ast.UnaryOp u x) = (a <- _eval x ;; call f [a]).
Proof.
  intros H. simpl. unfold dict_contains, getitem. rewrite H. reflexivity.
Qed.

(** A node outside the three shapes raises at once. *)
Lemma disallowed_raises t :
  allowed_shape t = false -> _eval t = Raise unsupported.
Proof.
  destruct t; simpl; try reflexivity; try discriminate.
  - intros ->. reflexivity.
  - rewrite table_binary. intros ->. reflexivity.
  - rewrite table_unary. destruct op; (reflexivity || discriminate).
Qed.

(** An exception raised at any node of a tree leaves the walk of the
    whole tree: nothing in [_eval] catches. *)
Lemma raise_propagates t :
  forall m e, In m (nodes t) -> _eval m = Raise e ->
  exists e', _eval t = Raise e'.
Proof.
  induction t; intros m e Hin He; simpl in Hin;
    (destruct Hin as [<- | Hin]; [eauto |]);
    try contradiction; try (simpl; eauto; fail).
  - simpl. destruct (dict_contains _ _); [| eauto].
    destruct (getitem _ _) as [f|]; [| simpl; eauto]. simpl.
    apply in_app_or in Hin. destruct Hin as [Hin | Hin].
    + destruct (IHt1 _ _ Hin He) as [e' ->]. simpl. eauto.
    + destruct (_eval t1); [| simpl; eauto]. simpl.
      destruct (IHt2 _ _ Hin He) as [e' ->]. simpl. eauto.
  - simpl. destruct (dict_contains _ _); [| eauto].
    destruct (getitem _ _) as [f|]; [| simpl; eauto]. simpl.
    destruct (IHt _ _ Hin He) as [e' ->]. simpl. eauto.
Qed.



(** What [safe_eval] makes of the two ways its body can end. *)
Lemma safe_eval_parse_error s e :
  parse s = Raise e ->
  safe_eval s = Raised (ValueError ("Invalid expression: " ++ s)) e.
Proof. unfold safe_eval. intros ->. reflexivity. Qed.

Lemma safe_eval_eval s t :
  parse s = Ok t ->
  safe_eval s = match _eval t with
                | Ok v => Returned v
                | Raise e => Raised (ValueError ("Invalid expression: " ++ s)) e
                end.
Proof. unfold safe_eval. intros ->. reflexivity. Qed.

Lemma node_raise_rejected s t m e :
  parse s = Ok t -> In m (nodes t) -> _eval m = Raise e ->
  EvaluationError s (safe_eval s).
Proof.
  intros Hp Hin He. rewrite (safe_eval_eval _ _ Hp).
  destruct (raise_propagates _ _ _ Hin He) as [e' ->].
  exists e'. reflexivity.
Qed.

End WalkProperties.

(* ------------------------------------------------------------------ *)
(** ** Division by zero *)

Section ZeroDivision.
Context {FA : FloatArith}.

Ltac zero_divisor :=
  repeat match goal with
  | H : (_ =? 0) = true |- _ => apply Z.eqb_eq in H; subst
  | H : _ && _ = true |- _ => apply andb_prop in H; destruct H
  | |- context [f_of_int ?z] =>
      let E := fresh "E" in
      destruct (f_of_int z) eqn:E; simpl;
      [try (apply f_of_int_zero in E) | eauto]
  | H : ?b = true |- context [?b] => rewrite H; simpl
  | |- context [f_is_zero f_zero] =>
      unfold f_zero; rewrite f_zero_is_zero; simpl
  | |- exists e, Raise _ = Raise e => eauto
  | |- _ => progress simpl
  end.

Lemma truediv_by_zero a v :
  is_zero_value v = true -> exists e, operator_truediv a v = Raise e.
Proof.
  destruct a, v; simpl; intros Hz;
    unfold operator_truediv, numeric_binop, to_complex, c_is_zero; simpl;
    zero_divisor.
Qed.

Lemma mod_by_zero a v :
  is_zero_value v = true -> exists e, operator_mod a v = Raise e.
Proof.
  destruct a, v; simpl; intros Hz;
    unfold operator_mod, numeric_binop, to_complex; simpl;
    zero_divisor.
Qed.

Lemma floordiv_by_zero a v :
  is_zero_value v = true -> exists e, operator_floordiv a v = Raise e.
Proof.
  destruct a, v; simpl; intros Hz;
    unfold operator_floordiv, numeric_binop, to_complex; simpl;
    zero_divisor.
Qed.

Lemma divides_by_zero_raises t :
  divides_by_zero t -> exists e, _eval t = Raise e.
Proof.
  destruct t; try (intros H; exact (match H with end)).
  intros (Ho & v & Hr & Hz).
  assert (exists f, dict_get ALLOWED_OPERATORS (ast.operator_class op) = Some f
                    /\ forall a, exists e, call f [a; v] = Raise e)
    as (f & Hf & Hc).
  { destruct Ho as [-> | [-> | ->]].
    - exists op_truediv. split; [reflexivity |].
      intros a. apply truediv_by_zero, Hz.
    - exists op_mod. split; [reflexivity |].
      intros a. apply mod_by_zero, Hz.
    - exists op_floordiv. split; [reflexivity |].
      intros a. apply floordiv_by_zero, Hz. }
  rewrite (eval_BinOp_allowed _ _ _ _ Hf), Hr.
  destruct (_eval t1) as [a|e]; simpl; [apply Hc | eauto].
Qed.

End ZeroDivision.

(* ------------------------------------------------------------------ *)
(** ** The walk in its environment *)

Section Purity.
Context {FA : FloatArith}.





End Purity.

(* ------------------------------------------------------------------ *)
(** ** The value of integer arithmetic *)

Section IntegerArithmetic.
Context {FA : FloatArith}.


End IntegerArithmetic.

(* ------------------------------------------------------------------ *)
(** ** What an arithmetic tree is parsed from

    A tree in which every node has an allowed shape can only come
    from tokens of arithmetic: every name, string and other operator
    that the grammar consumes leaves a node of another shape. *)

Section GrammarProperties.
Context {FA : FloatArith}.

Lemma arithmetic_BinOp l o r :
  arithmetic (ast.BinOp l o r)
  = allowed_binary o && (arithmetic l && arithmetic r).
Proof. unfold arithmetic. simpl. rewrite forallb_app. reflexivity. Qed.

Lemma arithmetic_UnaryOp u x :
  arithmetic (ast.UnaryOp u x) = true -> u = ast.USub /\ arithmetic x = true.
Proof.
  unfold arithmetic. simpl. destruct u; simpl; try discriminate. auto.
Qed.

Lemma tokens_ok_app a b : tokens_ok a -> tokens_ok b -> tokens_ok (a ++ b).
Proof. unfold tokens_ok. rewrite forallb_app. intros -> ->. reflexivity. Qed.

Lemma starts_with_op_inv s ts ts' :
  starts_with_op s ts = Some ts' -> ts = OP s :: ts'.
Proof.
  destruct ts as [|[] ts0]; simpl; try discriminate.
  destruct (String.eqb_spec s0 s); [| discriminate].
  intros [= <-]. subst. reflexivity.
Qed.

Lemma binary_operator_token lv s o :
  binary_operator lv s = Some o -> allowed_binary o = true ->
  arithmetic_token (OP s) = true.
Proof.
  destruct lv; simpl; try discriminate;
    repeat match goal with
    | |- context [String.eqb s ?x] =>
        destruct (String.eqb_spec s x); [subst |]
    end;
    try discriminate; intros [= <-]; try discriminate; reflexivity.
Qed.

Lemma unary_operator_token s :
  unary_operator s = Some ast.USub -> s = "-".
Proof.
  unfold unary_operator.
  repeat match goal with
  | |- context [String.eqb s ?x] =>
      destruct (String.eqb_spec s x); [subst |]
  end; try discriminate; reflexivity.
Qed.

Lemma left_assoc_sound k operand ops :
  sound operand ->
  (forall s o, ops s = Some o -> allowed_binary o = true ->
               arithmetic_token (OP s) = true) ->
  forall lhs ts t rest,
  left_assoc k operand ops lhs ts = Some (t, rest) -> arithmetic t = true ->
  arithmetic lhs = true /\
  exists used, ts = (used ++ rest)%list /\ tokens_ok used.
Proof.
  intros Hs Hops. induction k as [|k IH]; intros lhs ts t rest H Ha;
    [discriminate |].
  simpl in H.
  assert (Hstop : Some (lhs, ts) = Some (t, rest) ->
            arithmetic lhs = true /\
            exists used, ts = (used ++ rest)%list /\ tokens_ok used).
  { intros [= -> ->]. split; [exact Ha |]. exists []. split; reflexivity. }
  destruct ts as [|[n0 | n0 | k0 s0 | s |] ts']; try (apply Hstop, H).
  destruct (ops s) as [o|] eqn:Ho; [| apply Hstop, H].
  destruct (operand ts') as [[rhs ts'']|] eqn:Hr; [| discriminate].
  destruct (IH _ _ _ _ H Ha) as (Hb & used' & -> & Hu').
  rewrite arithmetic_BinOp in Hb.
  apply andb_prop in Hb. destruct Hb as [Hb1 Hb].
  apply andb_prop in Hb. destruct Hb as [Hb2 Hb3].
  destruct (Hs _ _ _ Hr Hb3) as (used & -> & Hu).
  split; [exact Hb2 |].
  exists (OP s :: used ++ used')%list. split.
  - simpl. rewrite <- app_assoc. reflexivity.
  - unfold tokens_ok. simpl forallb.
    change (arithmetic_token (OP s) && forallb arithmetic_token (used ++ used')
            = true).
    rewrite (Hops _ _ Ho Hb1). apply tokens_ok_app; assumption.
Qed.

Lemma keyword_chain_nil k operand kw ts r :
  keyword_chain k operand kw ts = Some ([], r) -> r = ts.
Proof.
  destruct k as [|k]; [discriminate |]. simpl.
  destruct ts as [|[n0 | s | k0 s0 | s |] ts'];
    try (intros [= <-]; reflexivity).
  destruct (String.eqb s kw); [| intros [= <-]; reflexivity].
  destruct (operand ts') as [[v ts'']|]; [| discriminate].
  destruct (keyword_chain k operand kw ts'') as [[vs r']|]; discriminate.
Qed.

Lemma compare_chain_nil k operand ts vs r :
  compare_chain k operand ts = Some ([], vs, r) -> r = ts.
Proof.
  destruct k as [|k]; [discriminate |]. simpl.
  destruct (compare_operator ts) as [[o ts']|];
    [| intros [= <- <-]; reflexivity].
  destruct (operand ts') as [[v ts'']|]; [| discriminate].
  destruct (compare_chain k operand ts'') as [[[os vs'] r']|]; discriminate.
Qed.

Lemma comma_list_single k item close ts v r :
  @comma_list ast.node k item close ts = Some ([v], false, r) ->
  exists mid, item ts = Some (v, mid) /\ starts_with_op close mid = Some r.
Proof.
  destruct k as [|k]; [discriminate |]. simpl.
  destruct (starts_with_op close ts); [discriminate |].
  destruct (item ts) as [[v' mid]|]; [| discriminate].
  destruct (starts_with_op close mid) as [r'|] eqn:Hc.
  - intros [= -> ->]. eauto.
  - destruct (starts_with_op "," mid); [| discriminate].
    destruct (comma_list k item close l) as [[[vs b] r']|]; discriminate.
Qed.

Lemma trailers_arithmetic k item :
  forall base ts t rest,
  trailers k item base ts = Some (t, rest) -> arithmetic t = true ->
  t = base /\ rest = ts.
Proof.
  induction k as [|k IH]; intros base ts t rest H Ha; [discriminate |].
  cbn [trailers] in H.
  assert (Hno : forall b ts0, trailers k item b ts0 = Some (t, rest) ->
                              arithmetic b = false -> False).
  { intros b ts0 Hb Hf. destruct (IH _ _ _ _ Hb Ha) as [-> _].
    rewrite Ha in Hf. discriminate. }
  destruct ts as [|[n0 | n0 | k0 s0 | s |] ts'];
    try (injection H as <- <-; split; reflexivity).
  destruct (String.eqb s ".").
  { destruct ts' as [|[n0 | a | k0 s0 | s1 |] ts'']; try discriminate.
    destruct (is_keyword a); [discriminate |].
    exfalso. eapply Hno; [exact H | reflexivity]. }
  destruct (String.eqb s "(").
  { destruct (comma_list _ _ _ _) as [[[args b] r]|]; [| discriminate].
    destruct (split_arguments args) as [[ps ks]|]; [| discriminate].
    exfalso. eapply Hno; [exact H | reflexivity]. }
  destruct (String.eqb s "[").
  { destruct (comma_list _ _ _ _) as [[[vs b] r]|]; [| discriminate].
    destruct vs as [|v [|v' vs]]; [discriminate | |].
    - destruct b; exfalso; eapply Hno; try exact H; reflexivity.
    - exfalso. eapply Hno; [exact H | reflexivity]. }
  injection H as <- <-. split; reflexivity.
Qed.

Lemma strings_not_arithmetic :
  forall ts k acc t rest,
  strings k acc ts = Some (t, rest) -> arithmetic t = false.
Proof.
  induction ts as [|tok ts IH]; intros k acc t rest H; simpl in H.
  - injection H as <- <-. destruct k; reflexivity.
  - destruct tok; try (injection H as <- <-; destruct k; reflexivity).
    destruct k, k0; try discriminate; eapply IH; exact H.
Qed.

Ltac not_arithmetic :=
  match goal with
  | Ha : arithmetic _ = true |- _ =>
      unfold arithmetic in Ha; simpl in Ha; discriminate Ha
  end.

Ltac binary_level IH H Ha next lv :=
  let v := fresh "v" in
  let ts' := fresh "ts'" in
  let Hv := fresh "Hv" in
  destruct (parse_level _ next _) as [[v ts']|] eqn:Hv; [| discriminate H];
  apply (left_assoc_sound _ _ _ (IH next) (binary_operator_token lv)) in H;
  [| exact Ha];
  let Hb := fresh "Hb" in
  let u1 := fresh "used" in
  let u2 := fresh "used" in
  let H1 := fresh "Hu" in
  let H2 := fresh "Hu" in
  destruct H as (Hb & u2 & -> & H2);
  destruct (IH next _ _ _ Hv Hb) as (u1 & -> & H1);
  exists (u1 ++ u2)%list; split;
  [rewrite app_assoc; reflexivity | apply tokens_ok_app; assumption].

Lemma parse_level_sound fuel : forall lv, sound (parse_level fuel lv).
Proof.
  induction fuel as [|fuel IH]; intros lv ts t rest H Ha; [discriminate |].
  cbn [parse_level] in H. destruct lv.
  - (* expressions *)
    destruct (parse_level fuel expression ts) as [[e ts']|] eqn:He;
      [| discriminate].
    destruct (starts_with_op "," ts').
    + destruct (tuple_tail _ _ _) as [es r].
      injection H as <- <-. not_arithmetic.
    + injection H as <- <-. exact (IH _ _ _ _ He Ha).
  - (* expression *)
    destruct (parse_level fuel disjunction ts) as [[body ts']|] eqn:He;
      [| discriminate].
    destruct (starts_with_name "if" ts').
    + destruct (parse_level fuel disjunction l) as [[test ts2]|];
        [| discriminate].
      destruct (starts_with_name "else" ts2); [| discriminate].
      destruct (parse_level fuel expression l0) as [[orelse r]|];
        [| discriminate].
      injection H as <- <-. not_arithmetic.
    + injection H as <- <-. exact (IH _ _ _ _ He Ha).
  - (* disjunction *)
    destruct (parse_level fuel conjunction ts) as [[v ts']|] eqn:He;
      [| discriminate].
    destruct (keyword_chain _ _ _ _) as [[[|v' vs] r]|] eqn:Hk;
      [| | discriminate].
    + apply keyword_chain_nil in Hk. subst r.
      injection H as <- <-. exact (IH _ _ _ _ He Ha).
    + injection H as <- <-. not_arithmetic.
  - (* conjunction *)
    destruct (parse_level fuel inversion ts) as [[v ts']|] eqn:He;
      [| discriminate].
    destruct (keyword_chain _ _ _ _) as [[[|v' vs] r]|] eqn:Hk;
      [| | discriminate].
    + apply keyword_chain_nil in Hk. subst r.
      injection H as <- <-. exact (IH _ _ _ _ He Ha).
    + injection H as <- <-. not_arithmetic.
  - (* inversion *)
    destruct (starts_with_name "not" ts).
    + destruct (parse_level fuel inversion l) as [[v r]|]; [| discriminate].
      injection H as <- <-. apply arithmetic_UnaryOp in Ha.
      destruct Ha as [Hu _]. discriminate Hu.
    + exact (IH _ _ _ _ H Ha).
  - (* comparison *)
    destruct (parse_level fuel bitwise_or ts) as [[v ts']|] eqn:He;
      [| discriminate].
    destruct (compare_chain _ _ _) as [[[[|o os] vs] r]|] eqn:Hk;
      [| | discriminate].
    + apply compare_chain_nil in Hk. subst r.
      injection H as <- <-. exact (IH _ _ _ _ He Ha).
    + injection H as <- <-. not_arithmetic.
  - binary_level IH H Ha bitwise_xor bitwise_or.
  - binary_level IH H Ha bitwise_and bitwise_xor.
  - binary_level IH H Ha shift_expr bitwise_and.
  - binary_level IH H Ha sum shift_expr.
  - binary_level IH H Ha term sum.
  - binary_level IH H Ha factor term.
  - (* factor *)
    destruct ts as [|[l | s | k s | s |] ts'];
      try exact (IH _ _ _ _ H Ha).
    destruct (unary_operator s) as [u|] eqn:Hu;
      [| exact (IH _ _ _ _ H Ha)].
    destruct (parse_level fuel factor ts') as [[v r]|] eqn:Hv;
      [| discriminate].
    injection H as <- <-. apply arithmetic_UnaryOp in Ha.
    destruct Ha as [-> Ha]. apply unary_operator_token in Hu. subst s.
    destruct (IH _ _ _ _ Hv Ha) as (used & -> & Hused).
    exists (OP "-" :: used). split; [reflexivity | exact Hused].
  - (* power *)
    destruct (parse_level fuel primary ts) as [[b ts']|] eqn:Hb;
      [| discriminate].
    destruct (starts_with_op "**" ts') as [ts''|] eqn:Hs.
    + destruct (parse_level fuel factor ts'') as [[e r]|] eqn:He;
        [| discriminate].
      injection H as <- <-. rewrite arithmetic_BinOp in Ha.
      apply andb_prop in Ha. destruct Ha as [_ Ha].
      apply andb_prop in Ha. destruct Ha as [Ha1 Ha2].
      apply starts_with_op_inv in Hs. subst ts'.
      destruct (IH _ _ _ _ Hb Ha1) as (u1 & -> & Hu1).
      destruct (IH _ _ _ _ He Ha2) as (u2 & -> & Hu2).
      exists (u1 ++ OP "**" :: u2)%list. split.
      * rewrite <- app_assoc. reflexivity.
      * apply tokens_ok_app; [exact Hu1 | exact Hu2].
    + injection H as <- <-. exact (IH _ _ _ _ Hb Ha).
  - (* primary *)
    destruct (parse_level fuel atom ts) as [[a ts']|] eqn:Hat;
      [| discriminate].
    destruct (trailers_arithmetic _ _ _ _ _ _ H Ha) as [-> ->].
    exact (IH _ _ _ _ Hat Ha).
  - (* atom *)
    destruct ts as [|[l | s | k s | s |] ts']; try discriminate.
    + injection H as <- <-. exists [NUMBER l]. split; reflexivity.
    + repeat match type of H with
             | context [if ?b then _ else _] => destruct b
             end;
        try discriminate; injection H as <- <-; not_arithmetic.
    + apply strings_not_arithmetic in H. rewrite H in Ha. discriminate.
    + destruct (String.eqb s "..."); [injection H as <- <-; not_arithmetic |].
      destruct (String.eqb_spec s "(") as [-> | _].
      * destruct (comma_list _ _ _ _) as [[[[|v [|v' vs]] [|]] r]|] eqn:Hc;
          try discriminate;
          try (injection H as <- <-; not_arithmetic).
        injection H as <- <-.
        apply comma_list_single in Hc. destruct Hc as (mid & Hv & Hm).
        apply starts_with_op_inv in Hm. subst mid.
        destruct (IH _ _ _ _ Hv Ha) as (used & -> & Hused).
        exists (OP "(" :: used ++ [OP ")"])%list. split.
        -- simpl. rewrite <- app_assoc. reflexivity.
        -- apply (tokens_ok_app [OP "("] (used ++ [OP ")"]));
             [reflexivity | apply tokens_ok_app; [exact Hused | reflexivity]].
      * destruct (String.eqb s "["); [| discriminate].
        destruct (comma_list _ _ _ _) as [[[vs b] r]|]; [| discriminate].
        injection H as <- <-. not_arithmetic.
Qed.

Lemma parse_tokens_sound ts t :
  parse_tokens ts = Some t -> arithmetic t = true -> tokens_ok ts.
Proof.
  unfold parse_tokens.
  destruct (parse_level _ expressions ts) as [[e rest]|] eqn:He;
    [| discriminate].
  destruct (forallb _ rest) eqn:Hr; [| discriminate].
  intros [= <-] Ha.
  destruct (parse_level_sound _ _ _ _ _ He Ha) as (used & -> & Hu).
  apply tokens_ok_app; [exact Hu |].
  unfold tokens_ok. rewrite forallb_forall in *.
  intros tok Hin. specialize (Hr tok Hin). destruct tok; (reflexivity || discriminate).
Qed.

Lemma not_arithmetic_node t :
  arithmetic t = false ->
  exists m, In m (nodes t) /\ allowed_shape m = false.
Proof.
  unfold arithmetic. induction (nodes t) as [|m l IH]; simpl; [discriminate |].
  destruct (allowed_shape m) eqn:Hm; simpl.
  - intros H. destruct (IH H) as (m' & Hin & Hm'). eauto.
  - intros _. eauto.
Qed.

(** The three ways in which an input is outside arithmetic, and what
    becomes of it. *)
Lemma disallowed_rejected (s : string) :
  (exists e, parse s = Raise e) \/
  (exists t m, parse s = Ok t /\ In m (nodes t) /\ allowed_shape m = false) \/
  (exists ts tok, tokenize s = Some ts /\ In tok ts /\
                  arithmetic_token tok = false) ->
  EvaluationError s (safe_eval s).
Proof.
  assert (Hnode : forall t m, parse s = Ok t -> In m (nodes t) ->
                    allowed_shape m = false -> EvaluationError s (safe_eval s)).
  { intros t m Hp Hin Hm.
    eapply node_raise_rejected; eauto using disallowed_raises. }
  intros [[e He] | [(t & m & Hp & Hin & Hm) | (ts & tok & Ht & Hin & Hk)]].
  - exists e. apply safe_eval_parse_error, He.
  - eapply Hnode; eauto.
  - destruct (parse s) as [t|e] eqn:Hp;
      [| exists e; apply safe_eval_parse_error, Hp].
    unfold parse in Hp. rewrite Ht in Hp.
    destruct (parse_tokens ts) as [t'|] eqn:Hpt; [| discriminate].
    injection Hp as ->.
    destruct (arithmetic t) eqn:Ha.
    + pose proof (parse_tokens_sound _ _ Hpt Ha) as Hok.
      unfold tokens_ok in Hok. rewrite forallb_forall in Hok.
      rewrite (Hok _ Hin) in Hk. discriminate.
    + destruct (not_arithmetic_node _ Ha) as (m & Hm & Hs).
      apply (Hnode t m); trivial.
Qed.

End GrammarProperties.

(* ------------------------------------------------------------------ *)
(** ** The claims about [safe_eval] *)

Section Claims.
Context {FA : FloatArith}.

(** C1. An input that does not parse (a multi-statement input among
    them), an input whose tree holds, anywhere, a node outside the
    three shapes (a name, a call, an attribute access, a string, a
    boolean or comparison operator, ...), and an input in which the
    tokenizer finds a name, a string or any operator that is not of
    arithmetic, all fail with the [ValueError] that names the input:
    no value is returned. *)
Theorem C1_disallowed_input_rejected (s : string) :
  (exists e, parse s = Raise e) \/
  (exists t m, parse s = Ok t /\ In m (nodes t) /\ allowed_shape m = false) \/
  (exists ts tok, tokenize s = Some ts /\ In tok ts /\
                  arithmetic_token tok = false) ->
  EvaluationError s (safe_eval s).
Proof. exact (disallowed_rejected s). Qed.

(** C3. The scenarios of the specification. *)
Theorem C3_scenarios :
  safe_eval "2+3*5" = Returned (VInt 17) /\
  safe_eval "2**10" = Returned (VInt 1024) /\
  safe_eval "7//2" = Returned (VInt 3) /\
  safe_eval "7%2" = Returned (VInt 1) /\
  safe_eval "-(3+4)" = Returned (VInt (-7)).
Proof. repeat split; reflexivity. Qed.

(** C4. An expression in which a division, a modulo or an integer
    division meets a right operand that evaluates to zero fails with
    the [ValueError] that names the input. *)
Theorem C4_division_by_zero_rejected (s : string) (t m : ast.node) :
  parse s = Ok t -> In m (nodes t) -> divides_by_zero m ->
  EvaluationError s (safe_eval s).
Proof.
  intros Hp Hin Hz. destruct (divides_by_zero_raises _ Hz) as [e He].
  eapply node_raise_rejected; eauto.
Qed.


(** C7. A binary node is accepted exactly when its operator is one of
    the seven of the table, and a unary node exactly when it is a
    minus: the node then applies the function of the table to the
    values of its operands, and any other binary or unary operator,
    anywhere in the tree, makes the input fail. *)
Theorem C7_operator_whitelist :
  (forall l o r, allowed_binary o = true ->
     exists f, dict_get ALLOWED_OPERATORS (ast.operator_class o) = Some f /\
               _eval (ast.BinOp l o r)
               = (a <- _eval l ;; b <- _eval r ;; call f [a; b])) /\
  (forall x, _eval (ast.UnaryOp ast.USub x)
             = (a <- _eval x ;; operator_neg a)) /\
  (forall s t m, parse s = Ok t -> In m (nodes t) ->
     match m with
     | ast.BinOp _ o _ => allowed_binary o = false
     | ast.UnaryOp u _ => u <> ast.USub
     | _ => False
     end ->
     EvaluationError s (safe_eval s)) /\
  Forall (fun s => EvaluationError s (safe_eval s))
         ["1|2"; "1&2"; "1^2"; "1<<2"; "1>>2"; "1@2"; "+1"; "~1"; "not 1"].
Proof.
  split; [| split; [| split]];
    [| | | repeat constructor; red; eexists; reflexivity].
  - intros l o r Ho. rewrite <- table_binary in Ho.
    destruct (contains_get _ _ Ho) as [f Hf].
    exists f. split; [exact Hf | apply eval_BinOp_allowed, Hf].
  - intros x. apply (eval_UnaryOp_allowed ast.USub x op_neg eq_refl).
  - intros s t m Hp Hin Hm.
    apply disallowed_rejected. right. left. exists t, m.
    repeat split; trivial.
    destruct m; try contradiction; simpl; trivial.
    destruct op; trivial. contradiction.
Qed.


(** C10. A boolean literal is not a number for [_eval]: ["True"] and
    ["False"] fail, and so does every input whose tree holds one. *)
Theorem C10_booleans_rejected :
  (forall b, _eval (ast.Constant (ast.CBool b)) = Raise unsupported) /\
  EvaluationError "True" (safe_eval "True") /\
  EvaluationError "False" (safe_eval "False") /\
  EvaluationError "True+1" (safe_eval "True+1") /\
  (forall s t b, parse s = Ok t ->
     In (ast.Constant (ast.CBool b)) (nodes t) ->
     EvaluationError s (safe_eval s)).
Proof.
  split; [| split; [| split; [| split]]]; try (red; eexists; reflexivity).
  - intros b. reflexivity.
  - intros s t b Hp Hin. eapply node_raise_rejected; eauto. reflexivity.
Qed.

End Claims.

(* ------------------------------------------------------------------ *)
(** ** Blank input *)

Ltac byte_arith :=
  unfold is_space_byte, is_whitespace, is_digit, is_name_start, is_quote,
         is_blank, is_newline, in_range in *;
  repeat rewrite ?orb_true_iff, ?andb_true_iff, ?orb_false_iff,
                 ?andb_false_iff, ?Z.leb_le, ?Z.eqb_eq, ?Z.leb_gt,
                 ?Z.eqb_neq in *;
  lia.

Lemma translate_newlines_Forall (P : ascii -> bool) cs :
  P "010"%char = true ->
  Forall (fun c => P c = true) cs ->
  Forall (fun c => P c = true) (translate_newlines cs).
Proof.
  intros Hnl.
  assert (H : forall k cs, (List.length cs <= k)%nat ->
            Forall (fun c => P c = true) cs ->
            Forall (fun c => P c = true) (translate_newlines cs)).
  { induction k as [|k IH]; intros [|c l] Hl Hw; simpl in *;
      try constructor; try lia.
    inversion Hw as [|? ? Hc Hw']; subst.
    destruct (code c =? 13).
    - destruct l as [|d l']; [repeat constructor; exact Hnl |].
      inversion Hw' as [|? ? Hd Hw'']; subst.
      destruct (code d =? 10).
      + constructor; [exact Hd |]. apply IH; [simpl in Hl; lia | exact Hw''].
      + constructor; [exact Hnl |]. apply IH; [lia | exact Hw'].
    - constructor; [exact Hc |]. apply IH; [lia | exact Hw']. }
  apply (H (List.length cs)). lia.
Qed.

(** [indentation] stops at the first character that is not a blank. *)
Lemma indentation_spec cs :
  forall col col' rest, indentation col cs = (col', rest) ->
  (exists pre, cs = (pre ++ rest)%list) /\
  match rest with c :: _ => is_blank c = false | [] => True end.
Proof.
  induction cs as [|c cs IH]; intros col col' rest H; simpl in H.
  - injection H as <- <-. split; [exists []; reflexivity | exact I].
  - unfold is_blank.
    destruct (code c =? 32) eqn:E1;
      [| destruct (code c =? 9) eqn:E2;
         [| destruct (code c =? 12) eqn:E3]];
      try (destruct (IH _ _ _ H) as [[pre ->] Hr];
           split; [exists (c :: pre); reflexivity | exact Hr]).
    injection H as <- <-. split; [exists []; reflexivity |].
    unfold is_blank. rewrite E1, E2, E3. reflexivity.
Qed.

Lemma span_app p cs :
  forall a r, span p cs = (a, r) -> cs = (a ++ r)%list.
Proof.
  induction cs as [|c cs IH]; intros a r H; simpl in H.
  - injection H as <- <-. reflexivity.
  - destruct (p c).
    + destruct (span p cs) as [a' r']. injection H as <- <-.
      simpl. f_equal. apply IH. reflexivity.
    + injection H as <- <-. reflexivity.
Qed.

Lemma code_inj c n :
  code c = Z.of_N n -> c = ascii_of_N n.
Proof.
  unfold code. intros H. apply N2Z.inj in H. rewrite <- H.
  symmetry. apply ascii_N_embedding.
Qed.

(** A whitespace character that is neither a blank nor a line feed
    starts no token. *)
Lemma stray_whitespace c :
  is_whitespace c = true -> is_blank c = false -> is_newline c = false ->
  c = "011"%char \/ c = "013"%char \/ c = "028"%char \/ c = "029"%char \/
  c = "030"%char \/ c = "031"%char.
Proof.
  intros Hw Hb Hn.
  assert (Hc : code c = 11 \/ code c = 13 \/ code c = 28 \/ code c = 29 \/
               code c = 30 \/ code c = 31) by byte_arith.
  destruct Hc as [H | [H | [H | [H | [H | H]]]]];
    [ apply (code_inj c 11) in H | apply (code_inj c 13) in H
    | apply (code_inj c 28) in H | apply (code_inj c 29) in H
    | apply (code_inj c 30) in H | apply (code_inj c 31) in H ];
    subst c; auto 10.
Qed.

Lemma tokens_stray fuel depth c cs :
  is_whitespace c = true -> is_blank c = false -> is_newline c = false ->
  tokens fuel depth false (c :: cs) = None.
Proof.
  intros Hw Hb Hn. destruct fuel as [|fuel]; [reflexivity |].
  destruct (stray_whitespace c Hw Hb Hn)
    as [-> | [-> | [-> | [-> | [-> | ->]]]]];
    cbn -[Nat.leb]; unfold operator_at, take_operator;
    cbn -[Nat.leb]; rewrite ?andb_false_r; reflexivity.
Qed.

(** Whitespace gives the tokenizer nothing but line ends and, for the
    bytes of its non-ASCII characters, names. *)
Lemma tokens_space fuel :
  forall bol cs, Forall (fun c => is_space_byte c = true) cs ->
  tokens fuel 0 bol cs = None \/
  exists ts, tokens fuel 0 bol cs = Some ts /\
             forallb name_or_newline ts = true.
Proof.
  induction fuel as [|fuel IH]; intros bol cs Hw; [left; reflexivity |].
  destruct bol.
  - cbn [tokens]. destruct (indentation 0 cs) as [col rest] eqn:E.
    destruct (indentation_spec _ _ _ _ E) as [[pre ->] Hr].
    apply Forall_app in Hw. destruct Hw as [_ Hw].
    destruct rest as [|c rest]; [right; exists []; split; reflexivity |].
    inversion Hw as [|? ? Hc Hw']; subst.
    destruct (is_newline c) eqn:Hn; [apply IH, Hw' |].
    replace (code c =? 35) with false by (symmetry; byte_arith).
    destruct (0 <? col)%nat; [left; reflexivity |]. apply IH, Hw.
  - destruct cs as [|c cs]; [right; exists []; split; reflexivity |].
    inversion Hw as [|? ? Hc Hw']; subst.
    destruct (is_blank c) eqn:Hb.
    { cbn [tokens]. rewrite Hb. apply IH, Hw'. }
    destruct (is_newline c) eqn:Hn.
    { cbn [tokens]. rewrite Hb, Hn.
      destruct (IH true cs Hw') as [-> | (ts & -> & Hts)];
        [left; reflexivity | right].
      exists (NEWLINE :: ts). split; [reflexivity | exact Hts]. }
    destruct (is_name_start c) eqn:Hs;
      [| left; apply tokens_stray; trivial; byte_arith].
    cbn [tokens]. rewrite Hb, Hn, Hs.
    replace (code c =? 35) with false by (symmetry; byte_arith).
    replace (code c =? 92) with false by (symmetry; byte_arith).
    replace (is_digit c) with false by (symmetry; byte_arith).
    replace (code c =? 46) with false by (symmetry; byte_arith).
    cbn [orb andb].
    destruct (span is_name_char (c :: cs)) as [nm rest] eqn:Esp.
    pose proof (span_app _ _ _ _ Esp) as Happ.
    assert (Hrest : Forall (fun c => is_space_byte c = true) rest).
    { rewrite Happ in Hw. apply Forall_app in Hw. apply Hw. }
    assert (Hname :
      option_map (cons (NAME (string_of_list_ascii nm)))
                 (tokens fuel 0 false rest) = None \/
      exists ts,
        option_map (cons (NAME (string_of_list_ascii nm)))
                   (tokens fuel 0 false rest) = Some ts /\
        forallb name_or_newline ts = true).
    { destruct (IH false rest Hrest) as [-> | (ts & -> & Hts)];
        [left; reflexivity | right].
      eexists. split; [reflexivity | exact Hts]. }
    destruct rest as [|q rest']; [exact Hname |].
    destruct (string_prefix nm); [| exact Hname].
    replace (is_quote q) with false; [exact Hname |].
    inversion Hrest; subst. symmetry. byte_arith.
Qed.

Lemma list_ascii_of_string_app a b :
  list_ascii_of_string (a ++ b)
  = (list_ascii_of_string a ++ list_ascii_of_string b)%list.
Proof. induction a as [|c a IH]; simpl; [| rewrite IH]; reflexivity. Qed.

Lemma whitespace_bytes s :
  whitespace_only s ->
  Forall (fun c => is_space_byte c = true) (list_ascii_of_string s).
Proof.
  induction 1 as [| c s Hc _ IH | u s Hu _ IH].
  - constructor.
  - simpl. constructor; [| exact IH].
    unfold is_space_byte. rewrite Hc. reflexivity.
  - rewrite list_ascii_of_string_app. apply Forall_app. split; [| exact IH].
    unfold unicode_whitespace in Hu. simpl in Hu.
    repeat (destruct Hu as [<- | Hu]; [repeat constructor |]).
    contradiction.
Qed.

Section BlankInput.
Context {FA : FloatArith}.

(** No expression starts at the end of the input or at a line end. *)
Lemma parse_level_no_start fuel :
  forall lv ts,
  match ts with [] | NEWLINE :: _ => True | _ => False end ->
  parse_level fuel lv ts = None.
Proof.
  induction fuel as [|fuel IH]; intros lv ts Hts; [reflexivity |].
  cbn [parse_level].
  destruct lv; rewrite ?(IH _ ts Hts); try reflexivity;
    destruct ts as [|[] ts']; try contradiction;
    cbn; rewrite ?(IH _ _ Hts); reflexivity.
Qed.

Lemma blank_rejected s :
  whitespace_only s -> EvaluationError s (safe_eval s).
Proof.
  intros Hw. apply whitespace_bytes in Hw.
  apply (translate_newlines_Forall is_space_byte) in Hw; [| reflexivity].
  destruct (tokens_space
              (2 * List.length (translate_newlines (list_ascii_of_string s)) + 2)
              true _ Hw) as [Ht | (ts & Ht & Hts)].
  - exists SyntaxError. apply safe_eval_parse_error.
    unfold parse, tokenize. rewrite Ht. reflexivity.
  - destruct ts as [|[l | nm | k z | z |] ts']; try discriminate.
    + exists SyntaxError. apply safe_eval_parse_error.
      unfold parse, tokenize. rewrite Ht. reflexivity.
    + apply disallowed_rejected. right. right.
      exists (NAME nm :: ts'), (NAME nm).
      split; [exact Ht | split; [left; reflexivity | reflexivity]].
    + exists SyntaxError. apply safe_eval_parse_error.
      unfold parse, tokenize. rewrite Ht. unfold parse_tokens.
      rewrite parse_level_no_start; [reflexivity | exact I].
Qed.

End BlankInput.

Section MoreClaims.
Context {FA : FloatArith}.

(** C6. The empty string and every string of whitespace only, ASCII
    or not, fail with the [ValueError] that names the input. *)
Theorem C6_blank_input_rejected (s : string) :
  whitespace_only s -> EvaluationError s (safe_eval s).
Proof. exact (blank_rejected s). Qed.

(** C9. A complex literal is a number for [_eval]: the walk returns
    the complex value of the node, so ["2j"] evaluates to a complex
    number for every float arithmetic, and in binary64 ["2j*2"]
    evaluates to the complex number [4j], not to a float. *)
Theorem C9_complex_literals_accepted :
  (forall re im,
     _eval (ast.Constant (ast.CComplex re im)) = Ok (VComplex re im)) /\
  safe_eval "2j" = Returned (VComplex f_zero (f_of_decimal 2 0)) /\
  @safe_eval binary64_arith "2j*2"
  = @Returned binary64_arith
      (@VComplex binary64_arith (S754_zero false)
                 (S754_finite false 4503599627370496 (-50))).
Proof. split; [| split]; reflexivity. Qed.


(** How the source text is read: blanks, comments, line structure
    and the forms of the literals. *)
Example reading_blanks_and_comments :
  safe_eval "1 + 2  # three" = Returned (VInt 3) /\
  safe_eval "(1 +
  2)" = Returned (VInt 3) /\
  safe_eval "1 +
2" = Raised (ValueError "Invalid expression: 1 +
2") SyntaxError /\
  safe_eval " 1" = Raised (ValueError "Invalid expression:  1") SyntaxError /\
  safe_eval "1;2" = Raised (ValueError "Invalid expression: 1;2") SyntaxError.
Proof. repeat split. Qed.

Example reading_literals :
  safe_eval "0x10 + 0b11 + 0o7 + 1_000" = Returned (VInt 1026) /\
  safe_eval "012" = Raised (ValueError "Invalid expression: 012") SyntaxError /\
  safe_eval "1_" = Raised (ValueError "Invalid expression: 1_") SyntaxError /\
  safe_eval "1.5e3" = Returned (VFloat (f_of_decimal 15 2)) /\
  safe_eval ".5j" = Returned (VComplex f_zero (f_of_decimal 5 (-1))).
Proof. repeat split. Qed.

End MoreClaims.

(* ------------------------------------------------------------------ *)
(** ** The claims at closed inputs, in binary64 *)

Lemma C1_witness :
  EvaluationError "__import__('os').system('ls')"
                  (eval64 "__import__('os').system('ls')").
Proof.
  apply (@C1_disallowed_input_rejected binary64_arith).
  right. right.
  exists [NAME "__import__"; OP "("; STRING SStr "os"; OP ")"; OP ".";
          NAME "system"; OP "("; STRING SStr "ls"; OP ")"],
         (NAME "__import__").
  split; [reflexivity | split; [left; reflexivity | reflexivity]].
Defined.

Lemma C4_witness : EvaluationError "1/0" (eval64 "1/0").
Proof.
  apply (@C4_division_by_zero_rejected binary64_arith "1/0"
           (ast.Expression
              (ast.BinOp (ast.Constant (ast.CInt 1)) ast.Div
                         (ast.Constant (ast.CInt 0))))
           (ast.BinOp (ast.Constant (ast.CInt 1)) ast.Div
                      (ast.Constant (ast.CInt 0)))).
  - reflexivity.
  - simpl. tauto.
  - simpl. split; [tauto |]. exists (VInt 0). split; reflexivity.
Defined.


Lemma C6_witness :
  EvaluationError "" (eval64 "") /\ EvaluationError "   " (eval64 "   ").
Proof.
  split.
  - apply (@C6_blank_input_rejected binary64_arith ""). constructor.
  - apply (@C6_blank_input_rejected binary64_arith "   ").
    repeat (apply ws_ascii; [reflexivity |]). constructor.
Defined.

Lemma C7_witness : EvaluationError "1|+2" (eval64 "1|+2").
Proof.
  apply (proj1 (proj2 (proj2 (@C7_operator_whitelist binary64_arith))) "1|+2"
           (ast.Expression
              (ast.BinOp (ast.Constant (ast.CInt 1)) ast.BitOr
                 (ast.UnaryOp ast.UAdd (ast.Constant (ast.CInt 2)))))
           (ast.UnaryOp ast.UAdd (ast.Constant (ast.CInt 2)))).
  - reflexivity.
  - simpl. tauto.
  - discriminate.
Defined.


Lemma C10_witness : EvaluationError "1-True" (eval64 "1-True").
Proof.
  apply (proj2 (proj2 (proj2 (proj2 (@C10_booleans_rejected binary64_arith))))
           "1-True"
           (ast.Expression
              (ast.BinOp (ast.Constant (ast.CInt 1)) ast.Sub
                         (ast.Constant (ast.CBool true))))
           true).
  - reflexivity.
  - simpl. tauto.
Defined.



(* ------------------------------------------------------------------ *)
(** ** Properties of [str.strip] as the handler uses it *)

Section StripProperties.

Lemma append_assoc (a b c : string) : (a ++ b) ++ c = a ++ (b ++ c).
Proof. induction a as [|x a IH]; simpl; [| rewrite IH]; reflexivity. Qed.

Lemma append_empty (a : string) : a ++ "" = a.
Proof. induction a as [|x a IH]; simpl; [| rewrite IH]; reflexivity. Qed.

Lemma all_in_app table a b :
  all_in table a -> all_in table b -> all_in table (a ++ b).
Proof.
  induction 1 as [|u s Hu _ IH]; intros Hb; [exact Hb |].
  rewrite append_assoc. constructor; auto.
Qed.

Lemma drop_append u s : drop (String.length u) (u ++ s) = s.
Proof. induction u as [|c u IH]; simpl; [destruct s |]; auto. Qed.

Lemma starts_with_append u s :
  starts_with u s = true -> s = u ++ drop (String.length u) s.
Proof.
  revert s. induction u as [|c u IH]; intros s; simpl.
  - destruct s; reflexivity.
  - destruct s as [|d s]; [discriminate |].
    destruct (Ascii.eqb_spec c d) as [-> |]; [| discriminate].
    intros H. rewrite <- (IH _ H). reflexivity.
Qed.

Lemma after_prefix_inv table s rest :
  after_prefix table s = Some rest ->
  exists u, In u table /\ s = u ++ rest.
Proof.
  induction table as [|u table IH]; simpl; [discriminate |].
  destruct (starts_with u s) eqn:Hp.
  - intros [= <-]. exists u. split; [left; reflexivity |].
    apply starts_with_append, Hp.
  - intros H. destruct (IH H) as (u' & Hu & ->). eauto.
Qed.

Lemma length_append a b :
  String.length (a ++ b) = (String.length a + String.length b)%nat.
Proof. induction a as [|c a IH]; simpl; [| rewrite IH]; reflexivity. Qed.

Lemma after_prefix_shorter table s rest :
  Forall (fun u => u <> "") table ->
  after_prefix table s = Some rest ->
  (String.length rest < String.length s)%nat.
Proof.
  intros Hne H. destruct (after_prefix_inv _ _ _ H) as (u & Hu & ->).
  rewrite Forall_forall in Hne. specialize (Hne u Hu).
  rewrite length_append. destruct u; [contradiction | simpl; lia].
Qed.

Lemma after_prefix_empty table :
  Forall (fun u => u <> "") table -> after_prefix table "" = None.
Proof.
  induction 1 as [|u table Hu _ IH]; simpl; [reflexivity |].
  destruct u; [contradiction | exact IH].
Qed.

(** Enough fuel is as good as more. *)
Lemma strip_leading_fuel table :
  Forall (fun u => u <> "") table ->
  forall f1 f2 s,
  (String.length s <= f1)%nat -> (String.length s <= f2)%nat ->
  strip_leading f1 table s = strip_leading f2 table s.
Proof.
  intros Hne. induction f1 as [|f1 IH]; intros f2 s H1 H2.
  - destruct s; [| simpl in H1; lia].
    destruct f2; simpl; [reflexivity |].
    rewrite (after_prefix_empty _ Hne). reflexivity.
  - destruct f2 as [|f2].
    + destruct s; [| simpl in H2; lia]. simpl.
      rewrite (after_prefix_empty _ Hne). reflexivity.
    + simpl. destruct (after_prefix table s) as [rest|] eqn:E; [| reflexivity].
      pose proof (after_prefix_shorter _ _ _ Hne E).
      apply IH; lia.
Qed.

Lemma stripl_unfold table s :
  Forall (fun u => u <> "") table ->
  stripl table s = match after_prefix table s with
                   | Some rest => stripl table rest
                   | None => s
                   end.
Proof.
  intros Hne. unfold stripl. destruct s as [|c s].
  - simpl. rewrite (after_prefix_empty _ Hne). reflexivity.
  - cbn [String.length strip_leading].
    destruct (after_prefix table (String c s)) as [rest|] eqn:E;
      [| reflexivity].
    pose proof (after_prefix_shorter _ _ _ Hne E). simpl in H.
    apply strip_leading_fuel; trivial; lia.
Qed.

(** Words of the table at the front do not count. *)
Lemma stripl_all_in table a s :
  is_code table -> all_in table a ->
  stripl table (a ++ s) = stripl table s.
Proof.
  intros [Hc Hne]. induction 1 as [|u a Hu _ IH]; [reflexivity |].
  rewrite append_assoc, (stripl_unfold _ _ Hne), (Hc _ _ Hu).
  exact IH.
Qed.

Lemma reverse_acc s : forall acc, reverse s acc = reverse s "" ++ acc.
Proof.
  induction s as [|c s IH]; intros acc; simpl; [reflexivity |].
  rewrite (IH (String c acc)), (IH (String c "")), append_assoc.
  reflexivity.
Qed.

Lemma reverse_append a b :
  reverse (a ++ b) "" = reverse b "" ++ reverse a "".
Proof.
  induction a as [|c a IH]; simpl.
  - rewrite append_empty. reflexivity.
  - rewrite (reverse_acc (a ++ b)), (reverse_acc a), IH, append_assoc.
    reflexivity.
Qed.

Lemma reverse_length s : String.length (reverse s "") = String.length s.
Proof.
  induction s as [|c s IH]; simpl; [reflexivity |].
  rewrite reverse_acc, length_append, IH. simpl. lia.
Qed.

Lemma whitespace_code : is_code whitespace_chars.
Proof.
  split.
  - intros u s Hu. cbv in Hu.
    repeat (destruct Hu as [<- | Hu]; [reflexivity |]). contradiction.
  - repeat constructor; discriminate.
Qed.

Lemma reversed_whitespace_code : is_code reversed_whitespace.
Proof.
  split.
  - intros u s Hu. cbv in Hu.
    repeat (destruct Hu as [<- | Hu]; [reflexivity |]). contradiction.
  - repeat constructor; discriminate.
Qed.

Lemma lstrip_stripl s : lstrip s = stripl whitespace_chars s.
Proof. reflexivity. Qed.

Lemma rstrip_stripl s :
  rstrip s = reverse (stripl reversed_whitespace (reverse s "")) "".
Proof.
  unfold rstrip, stripl. rewrite reverse_length. reflexivity.
Qed.

Lemma code_eq c z : code c = z -> c = ascii_of_N (Z.to_N z).
Proof.
  intros <-. unfold code. rewrite N2Z.id. symmetry. apply ascii_N_embedding.
Qed.

Lemma whitespace_char_in c :
  is_whitespace c = true -> In (String c "") whitespace_chars.
Proof.
  intros Hw.
  assert (Hc : code c = 9 \/ code c = 10 \/ code c = 11 \/ code c = 12 \/
               code c = 13 \/ code c = 28 \/ code c = 29 \/ code c = 30 \/
               code c = 31 \/ code c = 32) by byte_arith.
  repeat (destruct Hc as [Hc | Hc];
          [apply code_eq in Hc; subst c; cbv; tauto |]).
  apply code_eq in Hc. subst c. cbv. tauto.
Qed.

Lemma whitespace_all_in w :
  whitespace_only w -> all_in whitespace_chars w.
Proof.
  induction 1 as [| c s Hc _ IH | u s Hu _ IH].
  - constructor.
  - apply (all_in_cons _ (String c "") s); [| exact IH].
    apply whitespace_char_in, Hc.
  - constructor; [| exact IH].
    unfold whitespace_chars. apply in_or_app. right. exact Hu.
Qed.

Lemma whitespace_reversed w :
  whitespace_only w -> all_in reversed_whitespace (reverse w "").
Proof.
  intros Hw. apply whitespace_all_in in Hw.
  induction Hw as [|u s Hu _ IH]; [constructor |].
  rewrite reverse_append. apply all_in_app; [exact IH |].
  rewrite <- (append_empty (reverse u "")).
  constructor; [| constructor].
  unfold reversed_whitespace.
  apply (in_map (fun v => reverse v "") _ _ Hu).
Qed.

(** Whitespace before the text is stripped with the rest. *)
Lemma strip_leading_whitespace w s :
  whitespace_only w -> strip (w ++ s) = strip s.
Proof.
  intros Hw. unfold strip. rewrite !lstrip_stripl.
  rewrite (stripl_all_in _ _ _ whitespace_code (whitespace_all_in _ Hw)).
  reflexivity.
Qed.

Lemma rstrip_trailing_whitespace w s :
  whitespace_only w -> rstrip (s ++ w) = rstrip s.
Proof.
  intros Hw. rewrite !rstrip_stripl, reverse_append.
  rewrite (stripl_all_in _ _ _ reversed_whitespace_code
             (whitespace_reversed _ Hw)).
  reflexivity.
Qed.

Lemma whitespace_head h r :
  whitespace_only (String h r) -> is_continuation h = false.
Proof.
  intros H. inversion H as [| c s Hc _ | u s Hu _ Heq]; subst.
  - unfold is_continuation. byte_arith.
  - cbv in Hu.
    repeat (destruct Hu as [<- | Hu];
            [simpl in Heq; injection Heq as <- _; reflexivity |]).
    contradiction.
Qed.

Lemma starts_with_continuation w u :
  whitespace_only w -> continuation_only u = true ->
  forall t, starts_with u t = false -> starts_with u (t ++ w) = false.
Proof.
  intros Hw. induction u as [|a u IH]; intros Hu t H; [discriminate |].
  simpl in Hu. apply andb_prop in Hu. destruct Hu as [Ha Hu].
  destruct t as [|b t]; simpl.
  - destruct w as [|h w']; [reflexivity |].
    apply whitespace_head in Hw.
    destruct (Ascii.eqb_spec a h) as [-> |]; [| reflexivity].
    rewrite Ha in Hw. discriminate.
  - simpl in H. destruct (Ascii.eqb a b); [| reflexivity].
    simpl in *. apply IH; assumption.
Qed.

Lemma whitespace_well_formed :
  Forall (fun u => well_formed u = true) whitespace_chars.
Proof. repeat constructor. Qed.

Lemma after_prefix_append_none w t :
  whitespace_only w -> t <> "" ->
  after_prefix whitespace_chars t = None ->
  after_prefix whitespace_chars (t ++ w) = None.
Proof.
  intros Hw Ht. generalize whitespace_well_formed.
  induction whitespace_chars as [|u table IH]; intros Hwf H;
    [reflexivity |].
  inversion Hwf as [|? ? Hu Hwf']; subst.
  simpl in *. destruct (starts_with u t) eqn:Hs; [discriminate |].
  rewrite (IH Hwf' H).
  replace (starts_with u (t ++ w)) with false; [reflexivity |].
  symmetry. destruct u as [|a u]; [discriminate |].
  destruct t as [|b t]; [contradiction |].
  simpl in *. destruct (Ascii.eqb a b); [| reflexivity].
  simpl in *. apply starts_with_continuation; assumption.
Qed.

Lemma lstrip_append w :
  whitespace_only w ->
  forall t, lstrip (t ++ w) = lstrip t ++ w \/
            (lstrip (t ++ w) = "" /\ lstrip t = "").
Proof.
  intros Hw.
  assert (Hne := proj2 whitespace_code).
  assert (Hbase : lstrip ("" ++ w) = "" /\ lstrip "" = "").
  { split; [| reflexivity]. simpl.
    rewrite <- (append_empty w), lstrip_stripl.
    rewrite (stripl_all_in _ _ _ whitespace_code (whitespace_all_in _ Hw)).
    reflexivity. }
  assert (H : forall k t, (String.length t <= k)%nat ->
            lstrip (t ++ w) = lstrip t ++ w \/
            (lstrip (t ++ w) = "" /\ lstrip t = "")).
  { induction k as [|k IH]; intros t Hk;
      (destruct t as [|c t]; [right; exact Hbase |]);
      [simpl in Hk; lia |].
    rewrite (lstrip_stripl (String c t ++ w)), (lstrip_stripl (String c t)).
    rewrite (stripl_unfold _ (String c t) Hne),
            (stripl_unfold _ (String c t ++ w) Hne).
    destruct (after_prefix whitespace_chars (String c t)) as [rest|] eqn:E.
    - pose proof (after_prefix_shorter _ _ _ Hne E) as Hlen.
      destruct (after_prefix_inv _ _ _ E) as (u & Hu & Heq).
      rewrite Heq, append_assoc, (proj1 whitespace_code _ _ Hu).
      rewrite <- (lstrip_stripl (rest ++ w)), <- (lstrip_stripl rest).
      apply IH. simpl in Hlen, Hk. lia.
    - left.
      rewrite (after_prefix_append_none w (String c t) Hw); trivial.
      discriminate. }
  intros t. apply (H (String.length t)). lia.
Qed.

(** Whitespace after the text is stripped with the rest. *)
Lemma strip_trailing_whitespace w s :
  whitespace_only w -> strip (s ++ w) = strip s.
Proof.
  intros Hw. unfold strip.
  destruct (lstrip_append w Hw s) as [-> | [-> ->]]; [| reflexivity].
  apply rstrip_trailing_whitespace, Hw.
Qed.

Lemma strip_whitespace w : whitespace_only w -> strip w = "".
Proof.
  intros Hw. rewrite <- (append_empty w).
  rewrite (strip_leading_whitespace _ _ Hw). reflexivity.
Qed.

End StripProperties.

(* ------------------------------------------------------------------ *)
(** ** The text of an integer, and reading it back *)

Section IntegerText.

Lemma code_digit_char d : 0 <= d < 10 -> code (digit_char d) = 48 + d.
Proof.
  intros Hd. unfold code, digit_char.
  rewrite N_ascii_embedding by lia. lia.
Qed.

Lemma digit_char_is_digit d : 0 <= d < 10 -> is_digit (digit_char d) = true.
Proof.
  intros Hd. unfold is_digit, in_range. rewrite (code_digit_char d Hd).
  apply andb_true_intro. split; apply Z.leb_le; lia.
Qed.

Lemma digit_value_char d : 0 <= d < 10 -> digit_value (digit_char d) = d.
Proof.
  intros Hd. unfold digit_value.
  rewrite (digit_char_is_digit d Hd), (code_digit_char d Hd). lia.
Qed.

Lemma decimal_digits_value f :
  forall n acc, 0 <= n < 2 ^ Z.of_nat f ->
  fold_left step (decimal_digits f n acc) 0 = fold_left step acc n.
Proof.
  induction f as [|f IH]; intros n acc Hn.
  - simpl in *. replace n with 0 by lia. reflexivity.
  - cbn [decimal_digits].
    assert (Hm : 0 <= n mod 10 < 10) by (apply Z.mod_pos_bound; lia).
    destruct (n <? 10) eqn:Hlt.
    + apply Z.ltb_lt in Hlt. simpl. unfold step at 2.
      rewrite (digit_value_char _ Hm), Z.mod_small by lia. reflexivity.
    + apply Z.ltb_ge in Hlt. rewrite IH.
      * simpl. unfold step at 2. rewrite (digit_value_char _ Hm).
        f_equal. pose proof (Z.div_mod n 10). lia.
      * rewrite Nat2Z.inj_succ, Z.pow_succ_r in Hn by lia.
        split; [apply Z.div_pos; lia |].
        apply Z.div_lt_upper_bound; lia.
Qed.

Lemma decimal_digits_are_digits f :
  forall n acc, 0 <= n ->
  Forall (fun c => is_digit c = true) acc ->
  Forall (fun c => is_digit c = true) (decimal_digits f n acc).
Proof.
  induction f as [|f IH]; intros n acc Hn Hacc; [exact Hacc |].
  cbn [decimal_digits].
  assert (Hm : 0 <= n mod 10 < 10) by (apply Z.mod_pos_bound; lia).
  assert (Hacc' : Forall (fun c => is_digit c = true)
                         (digit_char (n mod 10) :: acc)).
  { constructor; [apply digit_char_is_digit, Hm | exact Hacc]. }
  destruct (n <? 10); [exact Hacc' |].
  apply IH; [apply Z.div_pos; lia | exact Hacc'].
Qed.

(** The first digit of a positive number is not [0]. *)
Lemma decimal_digits_head f :
  forall n acc, 0 < n < 2 ^ Z.of_nat f ->
  exists c rest, decimal_digits f n acc = c :: rest /\ 49 <= code c <= 57.
Proof.
  induction f as [|f IH]; intros n acc Hn; [simpl in Hn; lia |].
  cbn [decimal_digits].
  assert (Hm : 0 <= n mod 10 < 10) by (apply Z.mod_pos_bound; lia).
  destruct (n <? 10) eqn:Hlt.
  - apply Z.ltb_lt in Hlt. eexists. eexists. split; [reflexivity |].
    rewrite (code_digit_char _ Hm), Z.mod_small; lia.
  - apply Z.ltb_ge in Hlt. apply IH.
    rewrite Nat2Z.inj_succ, Z.pow_succ_r in Hn by lia.
    split.
    + apply Z.div_str_pos. lia.
    + apply Z.div_lt_upper_bound; lia.
Qed.

(** The number of digits: [n] has at most [k] of them exactly when it
    is below [10^k]. *)
Lemma decimal_digits_length f :
  forall n acc k, 0 <= n < 2 ^ Z.of_nat f -> (1 <= k)%nat ->
  ((List.length (decimal_digits f n acc) <= List.length acc + k)%nat
   <-> n < 10 ^ Z.of_nat k).
Proof.
  induction f as [|f IH]; intros n acc k Hn Hk.
  - simpl in *. split; [intros _ | lia].
    assert (0 < 10 ^ Z.of_nat k) by (apply Z.pow_pos_nonneg; lia). lia.
  - cbn [decimal_digits]. destruct (n <? 10) eqn:Hlt.
    + apply Z.ltb_lt in Hlt. simpl. split; [intros _ | lia].
      assert (10 ^ 1 <= 10 ^ Z.of_nat k)
        by (apply Z.pow_le_mono_r; lia). lia.
    + apply Z.ltb_ge in Hlt.
      assert (Hq : 0 <= n / 10 < 2 ^ Z.of_nat f).
      { rewrite Nat2Z.inj_succ, Z.pow_succ_r in Hn by lia.
        split; [apply Z.div_pos; lia |].
        apply Z.div_lt_upper_bound; lia. }
      destruct k as [|[|k]]; [lia | |].
      * (* one digit is not enough *)
        split; [| simpl; lia].
        intros Hlen. exfalso.
        assert (Hf : (1 <= f)%nat).
        { destruct f; [simpl in Hq; assert (1 <= n / 10)
                         by (apply Z.div_le_lower_bound; lia); lia | lia]. }
        destruct f as [|f']; [lia |]. cbn [decimal_digits] in Hlen.
        destruct (n / 10 <? 10).
        -- simpl in Hlen. lia.
        -- assert (Hge : forall g m a,
                     (List.length a <= List.length (decimal_digits g m a))%nat).
           { induction g as [|g IHg]; intros m a; [simpl; lia |].
             cbn [decimal_digits]. destruct (m <? 10); [simpl; lia |].
             etransitivity; [| apply IHg]. simpl. lia. }
           specialize (Hge f' (n / 10 / 10)
                           (digit_char (n / 10 mod 10)
                              :: digit_char (n mod 10) :: acc)).
           simpl in Hge. lia.
      * destruct (IH (n / 10) (digit_char (n mod 10) :: acc) (S k) Hq)
          as [H1 H2]; [lia |].
        simpl List.length in H1, H2.
        replace (Z.of_nat (S (S k))) with (Z.succ (Z.of_nat (S k))) by lia.
        rewrite Z.pow_succ_r by lia.
        pose proof (Z.div_mod n 10) as Hdm.
        pose proof (Z.mod_pos_bound n 10) as Hmb.
        split; intros Hgoal.
        -- assert (Hq' : n / 10 < 10 ^ Z.of_nat (S k)) by (apply H1; lia).
           lia.
        -- assert (Hq' : n / 10 < 10 ^ Z.of_nat (S k))
             by (apply Z.div_lt_upper_bound; lia).
           specialize (H2 Hq'). lia.
Qed.

Lemma decimal_fuel n : 0 <= n -> n < 2 ^ Z.of_nat (S (Z.to_nat (Z.log2 n))).
Proof.
  intros Hn. rewrite Nat2Z.inj_succ, Z2Nat.id by apply Z.log2_nonneg.
  destruct (Z.eq_dec n 0) as [-> |]; [reflexivity |].
  apply Z.log2_spec. lia.
Qed.

Lemma decimal_value n : 0 <= n -> Z_of_digits 10 (decimal n) = n.
Proof.
  intros Hn. unfold Z_of_digits, decimal.
  change (fun acc d => acc * 10 + digit_value d) with step.
  rewrite decimal_digits_value; [reflexivity |].
  split; [exact Hn | apply decimal_fuel, Hn].
Qed.

Lemma decimal_length n k :
  0 <= n -> (1 <= k)%nat ->
  ((List.length (decimal n) <= k)%nat <-> n < 10 ^ Z.of_nat k).
Proof.
  intros Hn Hk. unfold decimal.
  apply (decimal_digits_length _ n [] k); [| exact Hk].
  split; [exact Hn | apply decimal_fuel, Hn].
Qed.

End IntegerText.

Section ReadingBack.
Context {FA : FloatArith}.

Lemma digit_run_all cs :
  Forall (fun c => is_digit c = true) cs -> digit_run is_digit cs = (cs, []).
Proof.
  induction 1 as [|c cs Hc _ IH]; simpl; [reflexivity |].
  rewrite Hc, IH. reflexivity.
Qed.

Lemma translate_newlines_id cs :
  Forall (fun c => (code c =? 13) = false) cs -> translate_newlines cs = cs.
Proof.
  induction 1 as [|c cs Hc _ IH]; simpl; [reflexivity |].
  rewrite Hc, IH. reflexivity.
Qed.

Lemma number_digits c cs :
  49 <= code c <= 57 -> Forall (fun c => is_digit c = true) cs ->
  (List.length (c :: cs) <= int_max_str_digits)%nat ->
  number (c :: cs) = Some (LInt (Z_of_digits 10 (c :: cs)), []).
Proof.
  intros Hc Hcs Hlen.
  assert (Hd : is_digit c = true) by byte_arith.
  unfold number. replace (code c =? 48) with false by (symmetry; byte_arith).
  rewrite (digit_run_all (c :: cs)) by (constructor; assumption).
  unfold decimal_tail. cbn [fraction exponent].
  rewrite app_nil_r.
  destruct (int_max_str_digits <? List.length (c :: cs))%nat eqn:E.
  - apply Nat.ltb_lt in E. lia.
  - reflexivity.
Qed.

Lemma tokens_line_start fuel depth c cs :
  (code c =? 32) = false -> (code c =? 9) = false -> (code c =? 12) = false ->
  is_newline c = false -> (code c =? 35) = false ->
  tokens (S fuel) depth true (c :: cs) = tokens fuel depth false (c :: cs).
Proof.
  intros H32 H9 H12 Hnl Hh.
  cbn [tokens indentation]. rewrite H32, H9, H12, Hnl, Hh. reflexivity.
Qed.

Lemma tokens_number fuel c cs :
  49 <= code c <= 57 -> Forall (fun c => is_digit c = true) cs ->
  (List.length (c :: cs) <= int_max_str_digits)%nat ->
  tokens (S fuel) 0 false (c :: cs)
  = option_map (cons (NUMBER (LInt (Z_of_digits 10 (c :: cs)))))
               (tokens fuel 0 false []).
Proof.
  intros Hc Hcs Hlen. cbn [tokens].
  replace (is_blank c) with false by (symmetry; byte_arith).
  replace (is_newline c) with false by (symmetry; byte_arith).
  replace (code c =? 35) with false by (symmetry; byte_arith).
  replace (code c =? 92) with false by (symmetry; byte_arith).
  replace (is_digit c) with true by (symmetry; byte_arith).
  cbn [orb]. rewrite (number_digits c cs Hc Hcs Hlen). reflexivity.
Qed.

Lemma tokens_digits fuel bol c cs :
  49 <= code c <= 57 -> Forall (fun c => is_digit c = true) cs ->
  (List.length (c :: cs) <= int_max_str_digits)%nat ->
  tokens (S (S (S fuel))) 0 bol (c :: cs)
  = Some [NUMBER (LInt (Z_of_digits 10 (c :: cs)))].
Proof.
  intros Hc Hcs Hlen.
  assert (Hfalse : forall f, tokens (S (S f)) 0 false (c :: cs)
            = Some [NUMBER (LInt (Z_of_digits 10 (c :: cs)))])
    by (intros f; rewrite (tokens_number (S f) c cs Hc Hcs Hlen); reflexivity).
  destruct bol; [| apply Hfalse].
  rewrite tokens_line_start by byte_arith. apply Hfalse.
Qed.

Lemma tokens_minus fuel cs :
  tokens (S (S fuel)) 0 true ("-"%char :: cs)
  = match operator_at ("-"%char :: cs) with
    | Some (s, rest) =>
        if opens s && (max_level <=? 0)%nat then None
        else option_map (cons (OP s))
               (tokens fuel (if opens s then 1%nat
                             else if closes s then 0%nat else 0%nat) false rest)
    | None => None
    end.
Proof.
  rewrite tokens_line_start by reflexivity.
  cbn [tokens]. reflexivity.
Qed.

Lemma operator_minus c cs :
  49 <= code c <= 57 ->
  operator_at ("-"%char :: c :: cs) = Some ("-", c :: cs).
Proof.
  intros Hc.
  assert (H2 : Ascii.eqb c ">"%char = false)
    by (apply Ascii.eqb_neq; intros ->;
        change (code ">"%char) with 62 in Hc; lia).
  assert (H3 : Ascii.eqb c "="%char = false)
    by (apply Ascii.eqb_neq; intros ->;
        change (code "="%char) with 61 in Hc; lia).
  unfold operator_at, take_operator.
  cbn -[Nat.leb]. rewrite ?H2, ?H3. cbn -[Nat.leb].
  rewrite ?andb_false_r. reflexivity.
Qed.

Lemma tokens_minus_digits fuel c cs :
  49 <= code c <= 57 -> Forall (fun c => is_digit c = true) cs ->
  (List.length (c :: cs) <= int_max_str_digits)%nat ->
  tokens (S (S (S (S (S fuel))))) 0 true ("-"%char :: c :: cs)
  = Some [OP "-"; NUMBER (LInt (Z_of_digits 10 (c :: cs)))].
Proof.
  intros Hc Hcs Hlen.
  rewrite tokens_minus, (operator_minus c cs Hc).
  change (opens "-") with false. change (closes "-") with false. cbv iota.
  cbn [andb].
  rewrite (tokens_digits fuel false c cs Hc Hcs Hlen). reflexivity.
Qed.

Lemma decimal_shape n :
  0 < n ->
  exists c cs, decimal n = c :: cs /\ 49 <= code c <= 57
               /\ Forall (fun c => is_digit c = true) cs.
Proof.
  intros Hn.
  assert (Hf : 0 < n < 2 ^ Z.of_nat (S (Z.to_nat (Z.log2 n))))
    by (split; [exact Hn | apply decimal_fuel; lia]).
  destruct (decimal_digits_head _ n [] Hf) as (c & cs & E & Hc).
  exists c, cs. split; [exact E |]. split; [exact Hc |].
  assert (Hall : Forall (fun c => is_digit c = true) (c :: cs)).
  { rewrite <- E. apply decimal_digits_are_digits; [lia | constructor]. }
  inversion Hall; assumption.
Qed.

Lemma digits_no_return cs :
  Forall (fun c => is_digit c = true) cs ->
  Forall (fun c => (code c =? 13) = false) cs.
Proof.
  apply Forall_impl. intros c Hc. byte_arith.
Qed.

Lemma tokenize_digits c cs :
  49 <= code c <= 57 -> Forall (fun c => is_digit c = true) cs ->
  (List.length (c :: cs) <= int_max_str_digits)%nat ->
  tokenize (string_of_list_ascii (c :: cs))
  = Some [NUMBER (LInt (Z_of_digits 10 (c :: cs)))].
Proof.
  intros Hc Hcs Hlen. unfold tokenize.
  rewrite list_ascii_of_string_of_list_ascii.
  rewrite translate_newlines_id
    by (apply digits_no_return; constructor; [byte_arith | exact Hcs]).
  replace (2 * List.length (c :: cs) + 2)%nat
    with (S (S (S (S (2 * List.length cs)))))%nat by (simpl; lia).
  apply tokens_digits; assumption.
Qed.

Lemma tokenize_minus_digits c cs :
  49 <= code c <= 57 -> Forall (fun c => is_digit c = true) cs ->
  (List.length (c :: cs) <= int_max_str_digits)%nat ->
  tokenize (String "-" (string_of_list_ascii (c :: cs)))
  = Some [OP "-"; NUMBER (LInt (Z_of_digits 10 (c :: cs)))].
Proof.
  intros Hc Hcs Hlen. unfold tokenize.
  change (String "-" (string_of_list_ascii (c :: cs)))
    with (string_of_list_ascii ("-"%char :: c :: cs)).
  rewrite list_ascii_of_string_of_list_ascii.
  rewrite translate_newlines_id
    by (constructor; [reflexivity |];
        apply digits_no_return; constructor; [byte_arith | exact Hcs]).
  replace (2 * List.length ("-"%char :: c :: cs) + 2)%nat
    with (S (S (S (S (S (S (2 * List.length cs)))))))%nat by (simpl; lia).
  apply tokens_minus_digits; assumption.
Qed.

Lemma parse_number n :
  parse_tokens [NUMBER (LInt n)] = Some (ast.Expression (ast.Constant (ast.CInt n))).
Proof. reflexivity. Qed.

Lemma parse_minus_number n :
  parse_tokens [OP "-"; NUMBER (LInt n)]
  = Some (ast.Expression (ast.UnaryOp ast.USub (ast.Constant (ast.CInt n)))).
Proof. reflexivity. Qed.

Lemma decimal_short n :
  0 <= n < 10 ^ Z.of_nat int_max_str_digits ->
  (List.length (decimal n) <= int_max_str_digits)%nat.
Proof.
  intros [Hn Hlt]. apply decimal_length; [exact Hn | | exact Hlt].
  unfold int_max_str_digits. apply Nat.leb_le. reflexivity.
Qed.

Lemma read_back_natural n :
  0 <= n < 10 ^ Z.of_nat int_max_str_digits ->
  parse (string_of_list_ascii (decimal n))
  = Ok (ast.Expression (ast.Constant (ast.CInt n))).
Proof.
  intros Hn. destruct (Z.eq_dec n 0) as [-> | Hne]; [reflexivity |].
  assert (Hlen := decimal_short n Hn).
  assert (Hval := decimal_value n (proj1 Hn)).
  destruct (decimal_shape n) as (c & cs & E & Hc & Hcs); [lia |].
  rewrite E in *. unfold parse.
  rewrite (tokenize_digits c cs Hc Hcs Hlen), Hval, parse_number.
  reflexivity.
Qed.

Lemma read_back_negative n :
  0 < n < 10 ^ Z.of_nat int_max_str_digits ->
  parse (String "-" (string_of_list_ascii (decimal n)))
  = Ok (ast.Expression (ast.UnaryOp ast.USub (ast.Constant (ast.CInt n)))).
Proof.
  intros Hn.
  assert (Hlen := decimal_short n (conj (Z.lt_le_incl _ _ (proj1 Hn)) (proj2 Hn))).
  assert (Hval := decimal_value n (Z.lt_le_incl _ _ (proj1 Hn))).
  destruct (decimal_shape n (proj1 Hn)) as (c & cs & E & Hc & Hcs).
  rewrite E in *. unfold parse.
  rewrite (tokenize_minus_digits c cs Hc Hcs Hlen), Hval, parse_minus_number.
  reflexivity.
Qed.

(** The text of an integer within the limit reads back as that
    integer. *)
Lemma read_back z :
  Z.abs z < 10 ^ Z.of_nat int_max_str_digits ->
  safe_eval (int_text z) = Returned (VInt z).
Proof.
  intros Hz. unfold int_text. destruct (z <? 0) eqn:Hneg.
  - apply Z.ltb_lt in Hneg.
    rewrite (safe_eval_eval _ _ (read_back_negative (- z) ltac:(lia))).
    change (_eval (ast.Expression ?b)) with (_eval b).
    rewrite (eval_UnaryOp_allowed ast.USub _ _ eq_refl).
    cbn. rewrite Z.opp_involutive. reflexivity.
  - apply Z.ltb_ge in Hneg.
    rewrite (safe_eval_eval _ _ (read_back_natural z ltac:(lia))).
    reflexivity.
Qed.

End ReadingBack.

Section Unchanged.

Lemma starts_with_visible u c t :
  head_outside u = true -> visible c = true ->
  starts_with u (String c t) = false.
Proof.
  intros Hu Hc. destruct u as [|x u]; [discriminate |].
  simpl in *. destruct (Ascii.eqb x c) eqn:E; [| reflexivity].
  apply Ascii.eqb_eq in E. subst x. rewrite Hc in Hu. discriminate.
Qed.

Lemma after_prefix_visible table c t :
  forallb head_outside table = true -> visible c = true ->
  after_prefix table (String c t) = None.
Proof.
  intros Ht Hc. induction table as [|u table IH]; [reflexivity |].
  simpl in Ht. apply andb_prop in Ht as [Hu Ht].
  cbn [after_prefix]. rewrite (starts_with_visible u c t Hu Hc).
  exact (IH Ht).
Qed.

Lemma stripl_visible table c t :
  Forall (fun u => u <> "") table ->
  forallb head_outside table = true -> visible c = true ->
  stripl table (String c t) = String c t.
Proof.
  intros Hne Ht Hc.
  rewrite (stripl_unfold _ _ Hne), (after_prefix_visible _ _ _ Ht Hc).
  reflexivity.
Qed.

Lemma reverse_involutive s : reverse (reverse s "") "" = s.
Proof.
  induction s as [|c s IH]; [reflexivity |].
  cbn [reverse]. rewrite (reverse_acc s (String c "")), reverse_append, IH.
  reflexivity.
Qed.

(** A text that begins and ends with a visible ASCII character is
    what [strip] returns for it. *)
Lemma strip_visible c t a d :
  String c t = a ++ String d "" ->
  visible c = true -> visible d = true ->
  strip (String c t) = String c t.
Proof.
  intros E Hc Hd. unfold strip.
  rewrite lstrip_stripl,
    (stripl_visible _ c t (proj2 whitespace_code) eq_refl Hc).
  rewrite rstrip_stripl, E, reverse_append. cbn [reverse append].
  rewrite (stripl_visible _ d _ (proj2 reversed_whitespace_code) eq_refl Hd).
  change (String d (reverse a "")) with (reverse (String d "") "" ++ reverse a "").
  rewrite <- reverse_append. apply reverse_involutive.
Qed.

Lemma decimal_digits_nonempty f :
  forall n acc, acc <> [] -> decimal_digits f n acc <> [].
Proof.
  induction f as [|f IH]; intros n acc Hacc; [exact Hacc |].
  cbn [decimal_digits]. destruct (n <? 10); [discriminate |].
  apply IH. discriminate.
Qed.

Lemma decimal_nonempty n : decimal n <> [].
Proof.
  unfold decimal. cbn [decimal_digits]. destruct (n <? 10); [discriminate |].
  apply decimal_digits_nonempty. discriminate.
Qed.

Lemma string_of_list_ascii_app a b :
  string_of_list_ascii (a ++ b)
  = string_of_list_ascii a ++ string_of_list_ascii b.
Proof. induction a as [|c a IH]; simpl; [| rewrite IH]; reflexivity. Qed.

Lemma digit_visible c : is_digit c = true -> visible c = true.
Proof. unfold visible. intros H. byte_arith. Qed.

Lemma digits_ends cs :
  cs <> [] -> Forall (fun c => is_digit c = true) cs ->
  exists c t a d,
    string_of_list_ascii cs = String c t /\
    string_of_list_ascii cs = a ++ String d "" /\
    visible c = true /\ visible d = true.
Proof.
  intros Hne Hall.
  destruct (exists_last Hne) as (a & d & E).
  destruct cs as [|c t]; [contradiction |].
  exists c, (string_of_list_ascii t), (string_of_list_ascii a), d.
  split; [reflexivity |]. split; [rewrite E; apply string_of_list_ascii_app |].
  split.
  - apply digit_visible. inversion Hall; assumption.
  - apply digit_visible. rewrite E in Hall.
    apply Forall_app in Hall as [_ Hd]. inversion Hd; assumption.
Qed.

Lemma strip_int_text z : strip (int_text z) = int_text z.
Proof.
  unfold int_text. destruct (z <? 0) eqn:Hneg.
  - apply Z.ltb_lt in Hneg.
    destruct (digits_ends (decimal (- z)) (decimal_nonempty _))
      as (c & t & a & d & _ & E & _ & Hd).
    { apply decimal_digits_are_digits; [lia | constructor]. }
    apply (strip_visible "-" _ (String "-" a) d);
      [rewrite E; reflexivity | reflexivity | exact Hd].
  - apply Z.ltb_ge in Hneg.
    destruct (digits_ends (decimal z) (decimal_nonempty _))
      as (c & t & a & d & E1 & E2 & Hc & Hd).
    { apply decimal_digits_are_digits; [lia | constructor]. }
    rewrite E1. rewrite E1 in E2.
    exact (strip_visible c t a d E2 Hc Hd).
Qed.

End Unchanged.

(* ------------------------------------------------------------------ *)
(** ** Integer expressions, and true division *)

Section IntegerTrees.
Context {FA : FloatArith}.



(** X8. [/] is true division: an expression whose last operation is
    a [/] never returns an integer, whatever its operands are. *)
Theorem division_never_integer (s : string) (l r : ast.node) (z : Z) :
  parse s = Ok (ast.Expression (ast.BinOp l ast.Div r)) ->
  safe_eval s <> Returned (VInt z).
Proof.
  intros Hp. rewrite (safe_eval_eval _ _ Hp).
  change (_eval (ast.Expression ?b)) with (_eval b).
  rewrite (eval_BinOp_allowed _ ast.Div _ _ eq_refl).
  destruct (_eval l) as [a|]; [| discriminate].
  destruct (_eval r) as [b|]; [| discriminate].
  cbn. unfold operator_truediv, numeric_binop, to_complex, to_float, VC.
  destruct a as [x | x | re im], b as [y | y | re' im']; cbn;
    repeat match goal with
           | |- context [if ?c then _ else _] => destruct c; cbn
           | |- context [match ?c with Some _ => _ | None => _ end] =>
               destruct c; cbn
           end; discriminate.
Qed.

End IntegerTrees.

(* ------------------------------------------------------------------ *)
(** ** The handler [calculate] *)

Section HandlerProperties.
Context {FA : FloatArith}.
Variable repr_float : float -> string.
Variable repr_complex : float -> float -> string.

Lemma str_int_cases z :
  (Z.abs z < 10 ^ Z.of_nat int_max_str_digits /\ str_int z = Ok (int_text z)) \/
  (10 ^ Z.of_nat int_max_str_digits <= Z.abs z /\ exists e, str_int z = Raise e).
Proof.
  assert (Hk : (1 <= int_max_str_digits)%nat)
    by (apply Nat.leb_le; reflexivity).
  assert (Hlen := decimal_length (Z.abs z) _ (Z.abs_nonneg z) Hk).
  unfold str_int.
  destruct (int_max_str_digits <? List.length (decimal (Z.abs z)))%nat eqn:L.
  - apply Nat.ltb_lt in L. right. split; [| eauto].
    apply Z.le_ngt. intros Hlt. apply Hlen in Hlt. lia.
  - apply Nat.ltb_ge in L. left. split; [apply Hlen, L | reflexivity].
Qed.

Lemma result_differs r : ("Result: " ++ r)%string <> invalid_reply.
Proof. discriminate. Qed.

Section AnyChat.
Variable chat : Type.
Variable reply_text : string -> chat -> sent * chat.

(** X1. Whitespace before the expression, ASCII or not, does not
    count: the handler does to the chat what it does without it. *)
Theorem calculate_leading_whitespace (w text : string) (c : chat) :
  whitespace_only w ->
  calculate repr_float repr_complex chat reply_text (w ++ text) c
  = calculate repr_float repr_complex chat reply_text text c.
Proof.
  intros Hw. unfold calculate.
  rewrite (strip_leading_whitespace w text Hw). reflexivity.
Qed.

(** X2. Whitespace after the expression does not count either. *)
Theorem calculate_trailing_whitespace (w text : string) (c : chat) :
  whitespace_only w ->
  calculate repr_float repr_complex chat reply_text (text ++ w) c
  = calculate repr_float repr_complex chat reply_text text c.
Proof.
  intros Hw. unfold calculate.
  rewrite (strip_trailing_whitespace w text Hw). reflexivity.
Qed.

End AnyChat.

(** X3. A message of whitespace only, or an empty one, is answered
    with the invalid-expression reply and nothing else. *)
Theorem calculate_blank_message (w : string) (log : list string) :
  whitespace_only w -> answer repr_float repr_complex w log = (Done, invalid_reply :: log).
Proof.
  intros Hw. unfold answer, calculate, result_text.
  rewrite (strip_whitespace w Hw).
  destruct (blank_rejected "" ws_empty) as [cause ->]. reflexivity.
Qed.

(** X4. The invalid-expression reply is sent in two cases only: the
    evaluation of the stripped text fails, or it returns an integer of
    more than 4300 digits, whose conversion to text fails inside the
    [try].  A float or a complex result is always shown. *)
Theorem calculate_invalid_reply (text : string) (log : list string) :
  answer repr_float repr_complex text log = (Done, invalid_reply :: log) <->
  (exists e cause, safe_eval (strip text) = Raised e cause) \/
  (exists z, safe_eval (strip text) = Returned (VInt z) /\
             10 ^ Z.of_nat int_max_str_digits <= Z.abs z).
Proof.
  unfold answer, calculate, result_text.
  destruct (safe_eval (strip text)) as [v | e cause].
  - destruct v as [z | x | re im].
    + cbn [str].
      destruct (str_int_cases z) as [[Hz ->] | [Hz [e ->]]]; cbn -[Z.pow Z.of_nat].
      * split.
        -- intros H. discriminate H.
        -- intros [(e & cause & H) | (z' & [= <-] & Hz')];
             [discriminate | lia].
      * split; [intros _; right; eauto | reflexivity].
    + cbn -[Z.pow Z.of_nat]. split.
      * intros H. discriminate H.
      * intros [(e & cause & H) | (z' & H & _)]; discriminate.
    + cbn -[Z.pow Z.of_nat]. split.
      * intros H. discriminate H.
      * intros [(e & cause & H) | (z' & H & _)]; discriminate.
  - cbn -[Z.pow Z.of_nat]. split; [intros _; left; eauto | reflexivity].
Qed.

(** X5. The text of an integer of at most 4300 digits, negative or
    not, evaluates to that integer. *)
Theorem safe_eval_int_text (z : Z) :
  Z.abs z < 10 ^ Z.of_nat int_max_str_digits ->
  safe_eval (int_text z) = Returned (VInt z).
Proof. exact (read_back z). Qed.

(** X6. An integer answer sent back as a message is answered with
    itself: the handler shows an integer result by its decimal text,
    and that text is an expression with the same value. *)
Theorem calculate_own_answer (z : Z) (log : list string) :
  Z.abs z < 10 ^ Z.of_nat int_max_str_digits ->
  answer repr_float repr_complex (int_text z) log
  = (Done, ("Result: " ++ int_text z)%string :: log).
Proof.
  intros Hz. unfold answer, calculate, result_text.
  rewrite strip_int_text, (read_back z Hz). cbn [str].
  destruct (str_int_cases z) as [[_ ->] | [Hz' _]]; [reflexivity | lia].
Qed.

End HandlerProperties.

(* ------------------------------------------------------------------ *)
(** ** The handler at closed inputs, in binary64 *)

Lemma calculate_leading_whitespace_witness :
  calculate64 (" " ++ "2+3") [] = calculate64 "2+3" [].
Proof.
  apply (@calculate_leading_whitespace binary64_arith
           repr64.repr_float repr64.repr_complex (list string) record
           " " "2+3" []).
  apply ws_ascii; [reflexivity | constructor].
Defined.

Lemma calculate_trailing_whitespace_witness :
  calculate64 ("2+3" ++ String "010" "") [] = calculate64 "2+3" [].
Proof.
  apply (@calculate_trailing_whitespace binary64_arith
           repr64.repr_float repr64.repr_complex (list string) record
           (String "010" "") "2+3" []).
  apply ws_ascii; [reflexivity | constructor].
Defined.

Lemma calculate_blank_message_witness :
  calculate64 "   " [] = (Done, [invalid_reply]).
Proof.
  apply (@calculate_blank_message binary64_arith
           repr64.repr_float repr64.repr_complex "   " []).
  repeat (apply ws_ascii; [reflexivity |]). constructor.
Defined.

Lemma safe_eval_int_text_witness :
  eval64 (int_text (-1024)) = @Returned binary64_arith (@VInt binary64_arith (-1024)).
Proof.
  apply (@safe_eval_int_text binary64_arith (-1024)).
  apply Z.ltb_lt. vm_compute. reflexivity.
Defined.

Lemma calculate_own_answer_witness :
  calculate64 (int_text 17) [] = (Done, ["Result: 17"]).
Proof.
  apply (@calculate_own_answer binary64_arith
           repr64.repr_float repr64.repr_complex 17 []).
  apply Z.ltb_lt. vm_compute. reflexivity.
Defined.


Lemma division_never_integer_witness :
  eval64 "4/2" <> @Returned binary64_arith (@VInt binary64_arith 2).
Proof.
  apply (@division_never_integer binary64_arith "4/2"
           (ast.Constant (ast.CInt 4)) (ast.Constant (ast.CInt 2)) 2).
  reflexivity.
Defined.
